(** * The IAP tunnel client: framing, reader loop and writer loop

    A shallow embedding of the sub-protocol client of package [iap]
    (frame encoders, frame decoders, [readFrame], [writeFrame], the two
    background loops and [Conn.Write]) together with the properties of
    its specification.

    Integers are [Z] with the wrap-around of the Go type written out,
    byte slices are [list byte], the [Conn] struct is a record, and every
    method is a function in a small state monad over that record whose
    outcome says whether the call returned, returned an error, panicked
    or is parked on a channel or pipe. *)

From Stdlib Require Import String Ascii.
From Stdlib Require Import ZArith List Bool Lia.
From Stdlib Require Import Strings.Byte.
Import ListNotations.
Local Open Scope Z_scope.

(* ===================================================================== *)
(** ** Bytes and [encoding/binary.BigEndian] *)
(* ===================================================================== *)

Module BigEndian.

(** Go's conversion [byte(x)] of an unsigned integer: the low 8 bits. *)
Definition byte_of_Z (z : Z) : byte :=
  match Byte.of_N (Z.to_N (z mod 256)) with
  | Some b => b
  | None => x00
  end.

(** Go's conversion [uintN(b)] of a byte. *)
Definition Z_of_byte (b : byte) : Z := Z.of_N (Byte.to_N b).

(** [b[i]] on a slice that is long enough; callers only pass arrays of
    the exact size. *)
Definition at_ (b : list byte) (i : nat) : Z := Z_of_byte (nth i b x00).

(** [uint16(b[1]) | uint16(b[0])<<8] *)
Definition Uint16 (b : list byte) : Z :=
  Z.lor (at_ b 1) (Z.shiftl (at_ b 0) 8).

(** [uint32(b[3]) | uint32(b[2])<<8 | uint32(b[1])<<16 | uint32(b[0])<<24] *)
Definition Uint32 (b : list byte) : Z :=
  Z.lor (Z.lor (Z.lor (at_ b 3) (Z.shiftl (at_ b 2) 8))
               (Z.shiftl (at_ b 1) 16))
        (Z.shiftl (at_ b 0) 24).

(** [uint64(b[7]) | uint64(b[6])<<8 | ... | uint64(b[0])<<56] *)
Definition Uint64 (b : list byte) : Z :=
  Z.lor (Z.lor (Z.lor (Z.lor (Z.lor (Z.lor (Z.lor
    (at_ b 7)
    (Z.shiftl (at_ b 6) 8))
    (Z.shiftl (at_ b 5) 16))
    (Z.shiftl (at_ b 4) 24))
    (Z.shiftl (at_ b 3) 32))
    (Z.shiftl (at_ b 2) 40))
    (Z.shiftl (at_ b 1) 48))
    (Z.shiftl (at_ b 0) 56).

(** [b[0] = byte(v >> 8); b[1] = byte(v)] *)
Definition PutUint16 (v : Z) : list byte :=
  [byte_of_Z (Z.shiftr v 8); byte_of_Z v].

(** [b[0] = byte(v >> 24); ...; b[3] = byte(v)] *)
Definition PutUint32 (v : Z) : list byte :=
  [byte_of_Z (Z.shiftr v 24); byte_of_Z (Z.shiftr v 16);
   byte_of_Z (Z.shiftr v 8); byte_of_Z v].

(** [b[0] = byte(v >> 56); ...; b[7] = byte(v)] *)
Definition PutUint64 (v : Z) : list byte :=
  [byte_of_Z (Z.shiftr v 56); byte_of_Z (Z.shiftr v 48);
   byte_of_Z (Z.shiftr v 40); byte_of_Z (Z.shiftr v 32);
   byte_of_Z (Z.shiftr v 24); byte_of_Z (Z.shiftr v 16);
   byte_of_Z (Z.shiftr v 8); byte_of_Z v].

End BigEndian.

Import BigEndian.

(* ===================================================================== *)
(** ** Constants and frame encoders *)
(* ===================================================================== *)

Definition subprotoMaxFrameSize : Z := 16384.
Definition subprotoAckThreshold : Z := 2 * subprotoMaxFrameSize.
Definition subprotoTagSuccess : Z := 0x1.
Definition subprotoTagData : Z := 0x4.
Definition subprotoTagAck : Z := 0x7.

(** [math.MaxUint32] *)
Definition MaxUint32 : Z := 2 ^ 32 - 1.

(** Wrap-around of [uint64] and [uint32] arithmetic. *)
Definition u64 (z : Z) : Z := z mod 2 ^ 64.
Definition u32 (z : Z) : Z := z mod 2 ^ 32.

(** [len(s)] as a Go [int]. *)
Definition len (s : list byte) : Z := Z.of_nat (length s).

(** [make([]byte, n)]: [n] zero bytes. *)
Definition make (n : nat) : list byte := repeat x00 n.

(** What a zeroed buffer of [n] bytes holds after a [Read] stored [data]
    (at most [n] bytes) at its start. *)
Definition filled (n : nat) (data : list byte) : list byte :=
  data ++ make (n - length data).

(** A call either returns a value, or panics. *)
Inductive mayPanic (A : Type) : Type :=
| Returns (a : A)
| Panics (msg : string).
Arguments Returns {A} a.
Arguments Panics {A} msg.

(** [makeAckFrame]: tag [0x0007] and the 8-byte count. *)
Definition makeAckFrame (nb : Z) : list byte :=
  PutUint16 subprotoTagAck ++ PutUint64 nb.

(** [makeDataFrame]: panics when [len(data)+6] exceeds [math.MaxUint32],
    else a 6-byte header (tag [0x0004], [uint32(len(data))]) with the
    data appended. *)
Definition makeDataFrame (data : list byte) : mayPanic (list byte) :=
  if len data + 6 >? MaxUint32 then Panics "data too large for frame"
  else Returns (PutUint16 subprotoTagData ++ PutUint32 (u32 (len data)) ++ data).

(* ===================================================================== *)
(** ** The surroundings of a [Conn]: errors, transport, pipes, channel *)
(* ===================================================================== *)

(** Modelled from the spec: the package's two error types [ProtocolError]
    and [CloseError] are declared outside the files at hand; section 7
    gives them as [ProtocolError(message)] and [CloseError(code, reason)].
    The other constructors are the errors of the libraries the client
    sees: the transport's structured close [websocket.CloseError],
    [io.EOF], [io.ErrClosedPipe], and any other transport failure. *)
Inductive error : Type :=
| ProtocolError (msg : string)
| CloseError (code : Z) (reason : string)
| WsCloseError (code : Z) (reason : string)
| EOF
| ErrClosedPipe
| TransportError (msg : string).

Definition is_EOF (e : error) : bool :=
  match e with EOF => true | _ => false end.

(** The transport [c.conn] (a [net.Conn]).

    Inbound, it is the script of what the peer delivers: [inbound] lists
    the messages still unread, and one [Read] returns bytes of the first
    one only (a read never crosses a message boundary, so it may be
    short); when the script is used up every [Read] fails with
    [inboundErr] ([EOF] after a normal closure).

    Outbound, [outbound] logs the slices accepted by [Write], oldest
    first; [writesLeft] more writes succeed, later ones fail with
    [outboundErr]. *)
Record NetConn : Type := mkNetConn {
  inbound : list (list byte);
  inboundErr : error;
  outbound : list (list byte);
  writesLeft : nat;
  outboundErr : error
}.

(** The goroutine that called [PipeWriter.Write] on an [io.Pipe]:
    [pipe.write] runs [for once := true; once || len(b) > 0; once = false]
    and parks in [p.wrCh <- b] at every turn, so a writer offers its
    buffer at least once, even when the buffer is empty. *)
Inductive pipeWriter : Type :=
| NoWrite
| Offering (b : list byte) (n : nat)
| WriteReturned (n : nat) (err : option error).

(** An [io.Pipe]: [werr] is the error stored by [CloseWithError] (the
    pipe is done once it is set), [writer] the call parked on the write
    side, [passed] every byte handed over to the read side so far. *)
Record Pipe : Type := mkPipe {
  werr : option error;
  writer : pipeWriter;
  passed : list byte
}.

(** The unbuffered channel [sendNbCh] with the sender parked on it, if
    any: [Sending buf] is a call [Conn.Write(buf)] stopped in
    [c.sendNbCh <- len(buf)]. *)
Inductive sendChan : Type :=
| Idle
| Sending (buf : list byte)
| Closed.

(** The [Conn] struct.  The two pipe ends of each [io.Pipe] are one
    [Pipe]; the staging buffers [recvBuf] and [sendBuf] hold no state
    that outlives a call and are left out, their length is
    [subprotoMaxFrameSize]. *)
Record Conn : Type := mkConn {
  conn : NetConn;
  connected : bool;
  sessionID : list byte;
  recvNbAcked : Z;
  recvNbUnacked : Z;
  recvPipe : Pipe;
  sendNbAcked : Z;
  sendNbCh : sendChan;
  sendPipe : Pipe
}.

Definition with_conn (t : NetConn) (c : Conn) : Conn :=
  mkConn t (connected c) (sessionID c) (recvNbAcked c) (recvNbUnacked c)
         (recvPipe c) (sendNbAcked c) (sendNbCh c) (sendPipe c).
Definition with_connected (b : bool) (c : Conn) : Conn :=
  mkConn (conn c) b (sessionID c) (recvNbAcked c) (recvNbUnacked c)
         (recvPipe c) (sendNbAcked c) (sendNbCh c) (sendPipe c).
Definition with_sessionID (s : list byte) (c : Conn) : Conn :=
  mkConn (conn c) (connected c) s (recvNbAcked c) (recvNbUnacked c)
         (recvPipe c) (sendNbAcked c) (sendNbCh c) (sendPipe c).
Definition with_recvNbAcked (z : Z) (c : Conn) : Conn :=
  mkConn (conn c) (connected c) (sessionID c) z (recvNbUnacked c)
         (recvPipe c) (sendNbAcked c) (sendNbCh c) (sendPipe c).
Definition with_recvNbUnacked (z : Z) (c : Conn) : Conn :=
  mkConn (conn c) (connected c) (sessionID c) (recvNbAcked c) z
         (recvPipe c) (sendNbAcked c) (sendNbCh c) (sendPipe c).
Definition with_recvPipe (p : Pipe) (c : Conn) : Conn :=
  mkConn (conn c) (connected c) (sessionID c) (recvNbAcked c) (recvNbUnacked c)
         p (sendNbAcked c) (sendNbCh c) (sendPipe c).
Definition with_sendNbAcked (z : Z) (c : Conn) : Conn :=
  mkConn (conn c) (connected c) (sessionID c) (recvNbAcked c) (recvNbUnacked c)
         (recvPipe c) z (sendNbCh c) (sendPipe c).
Definition with_sendNbCh (ch : sendChan) (c : Conn) : Conn :=
  mkConn (conn c) (connected c) (sessionID c) (recvNbAcked c) (recvNbUnacked c)
         (recvPipe c) (sendNbAcked c) ch (sendPipe c).
Definition with_sendPipe (p : Pipe) (c : Conn) : Conn :=
  mkConn (conn c) (connected c) (sessionID c) (recvNbAcked c) (recvNbUnacked c)
         (recvPipe c) (sendNbAcked c) (sendNbCh c) p.

(** A fresh pipe, and [newConn] without its two [go] statements. *)
Definition newPipe : Pipe := mkPipe None NoWrite [].

Definition newConn (netConn : NetConn) : Conn :=
  mkConn netConn false [] 0 0 newPipe 0 Idle newPipe.

(* ===================================================================== *)
(** ** The monad of a method call on a [*Conn] *)
(* ===================================================================== *)

(** How a call ends.  A Go method returning [error] is an [M unit]:
    [Ok tt] is the [nil] return and [Err e] a non-nil one; the state
    reached when the error is returned is kept, as the struct is mutated
    in place.  [Parked] is a goroutine blocked on a channel or pipe that
    nothing in the state can wake; [OutOfFuel] is the bound of a modelled
    loop being hit, which the totality lemmas below exclude. *)
Inductive outcome (A : Type) : Type :=
| Ok (a : A)
| Err (e : error)
| Parked
| Panicked (msg : string)
| OutOfFuel.
Arguments Ok {A} a.
Arguments Err {A} e.
Arguments Parked {A}.
Arguments Panicked {A} msg.
Arguments OutOfFuel {A}.

Definition M (A : Type) : Type := Conn -> outcome A * Conn.

Definition ret {A} (a : A) : M A := fun c => (Ok a, c).

Definition bind {A B} (m : M A) (k : A -> M B) : M B := fun c =>
  match m c with
  | (Ok a, c') => k a c'
  | (Err e, c') => (Err e, c')
  | (Parked, c') => (Parked, c')
  | (Panicked msg, c') => (Panicked msg, c')
  | (OutOfFuel, c') => (OutOfFuel, c')
  end.

Definition fail {A} (e : error) : M A := fun c => (Err e, c).
Definition outOfFuel {A} : M A := fun c => (OutOfFuel, c).
Definition gets {A} (f : Conn -> A) : M A := fun c => (Ok (f c), c).
Definition modify (f : Conn -> Conn) : M unit := fun c => (Ok tt, f c).

(** [x, err := m()]: run [m] and keep its error as a value. *)
Definition attempt {A} (m : M A) : M (A + error) := fun c =>
  match m c with
  | (Ok a, c') => (Ok (inl a), c')
  | (Err e, c') => (Ok (inr e), c')
  | (Parked, c') => (Parked, c')
  | (Panicked msg, c') => (Panicked msg, c')
  | (OutOfFuel, c') => (OutOfFuel, c')
  end.

(** [err := m()] *)
Definition errorOf (m : M unit) : M (option error) := fun c =>
  match m c with
  | (Ok _, c') => (Ok None, c')
  | (Err e, c') => (Ok (Some e), c')
  | (Parked, c') => (Parked, c')
  | (Panicked msg, c') => (Panicked msg, c')
  | (OutOfFuel, c') => (OutOfFuel, c')
  end.

(** [return err] *)
Definition returnErr (err : option error) : M unit :=
  match err with
  | None => ret tt
  | Some e => fail e
  end.

(** A pure call that may panic. *)
Definition call {A} (r : mayPanic A) : M A := fun c =>
  match r with
  | Returns a => (Ok a, c)
  | Panics msg => (Panicked msg, c)
  end.

Declare Scope go_scope.
Delimit Scope go_scope with go.
Notation "x <- m ;; k" := (bind m (fun x => k))
  (at level 61, m at next level, right associativity) : go_scope.
Notation "m ;; k" := (bind m (fun _ => k))
  (at level 61, right associativity) : go_scope.
Local Open Scope go_scope.

(* ===================================================================== *)
(** ** Transport, pipe and channel operations *)
(* ===================================================================== *)

(** [c.conn.Read(p)] with [len(p) = k]: bytes of the first unread
    message, at most [k]; a message read to its end is dropped. *)
Definition conn_Read (k : nat) : M (list byte) := fun c =>
  let t := conn c in
  match inbound t with
  | [] => (Err (inboundErr t), c)
  | m :: ms =>
      let unread := match skipn k m with [] => ms | rest => rest :: ms end in
      (Ok (firstn k m),
       with_conn (mkNetConn unread (inboundErr t) (outbound t)
                            (writesLeft t) (outboundErr t)) c)
  end.

(** [bytes := [k]byte{}; c.conn.Read(bytes[:])], giving the array. *)
Definition conn_ReadArray (k : nat) : M (list byte) :=
  data <- conn_Read k ;; ret (filled k data).

(** [c.conn.Write(b)] *)
Definition conn_Write (b : list byte) : M unit := fun c =>
  let t := conn c in
  match writesLeft t with
  | O => (Err (outboundErr t), c)
  | S n =>
      (Ok tt,
       with_conn (mkNetConn (inbound t) (inboundErr t) (outbound t ++ [b])
                            n (outboundErr t)) c)
  end.

(** [PipeWriter.CloseWithError(err)]: the first stored error stays; a
    writer parked in the pipe returns what it wrote so far with
    [io.ErrClosedPipe]. *)
Definition Pipe_CloseWithError (err : error) (p : Pipe) : Pipe :=
  match werr p with
  | Some _ => p
  | None =>
      mkPipe (Some err)
             (match writer p with
              | Offering _ n => WriteReturned n (Some ErrClosedPipe)
              | w => w
              end)
             (passed p)
  end.

(** [PipeWriter.Write(b)] called by a loop of the [Conn], with the other
    side reading until the write is complete: [io.ErrClosedPipe] on a
    closed pipe, all of [b] handed over otherwise. *)
Definition Pipe_Write (b : list byte) (p : Pipe) : outcome nat * Pipe :=
  match werr p with
  | Some _ => (Err ErrClosedPipe, p)
  | None => (Ok (length b), mkPipe None (writer p) (passed p ++ b))
  end.

(** Another goroutine enters [PipeWriter.Write(b)]: it returns at once on
    a closed pipe and parks offering [b] otherwise. *)
Definition Pipe_offer (b : list byte) (p : Pipe) : Pipe :=
  match werr p with
  | Some _ => mkPipe (werr p) (WriteReturned 0 (Some ErrClosedPipe)) (passed p)
  | None => mkPipe None (Offering b 0) (passed p)
  end.

(** [PipeReader.Read(buf)] with [len(buf) = k]: the stored error on a
    closed pipe; else [copy(buf, b)] from the buffer [b] on offer, after
    which the writer offers the rest or, with nothing left, returns;
    with no writer the reader parks. *)
Definition Pipe_Read (k : nat) (p : Pipe) : outcome (list byte) * Pipe :=
  match werr p with
  | Some e => (Err e, p)
  | None =>
      match writer p with
      | Offering b n =>
          let data := firstn k b in
          let n' := (n + length data)%nat in
          (Ok data,
           mkPipe None
                  (match skipn k b with
                   | [] => WriteReturned n' None
                   | rest => Offering rest n'
                   end)
                  (passed p ++ data))
      | _ => (Parked, p)
      end
  end.

Definition recvWriter_Write (b : list byte) : M nat := fun c =>
  let (r, p) := Pipe_Write b (recvPipe c) in (r, with_recvPipe p c).

Definition sendReader_Read (k : nat) : M (list byte) := fun c =>
  let (r, p) := Pipe_Read k (sendPipe c) in (r, with_sendPipe p c).

(** [nb, ok := <-c.sendNbCh].  On the rendezvous the parked [Conn.Write]
    goes on to its next statement, [c.sendWriter.Write(buf)]. *)
Definition recv_sendNbCh : M (Z * bool) := fun c =>
  match sendNbCh c with
  | Sending buf =>
      (Ok (len buf, true),
       with_sendPipe (Pipe_offer buf (sendPipe c)) (with_sendNbCh Idle c))
  | Closed => (Ok (0, false), c)
  | Idle => (Parked, c)
  end.

(** [Conn.Write(buf)], from the side of the calling goroutine: it parks
    in [c.sendNbCh <- len(buf)]; sending on a closed channel panics.
    The rest of the call, [return c.sendWriter.Write(buf)], runs from
    [recv_sendNbCh] on, and [Write_result] tells how it ended. *)
Definition Conn_Write (buf : list byte) : M unit := fun c =>
  match sendNbCh c with
  | Idle => (Ok tt, with_sendNbCh (Sending buf) c)
  | Sending _ => (Parked, c)
  | Closed => (Panicked "send on closed channel", c)
  end.

(** The [(n, err)] of the [Conn.Write] call in flight, once it has
    returned. *)
Definition Write_result (c : Conn) : option (nat * option error) :=
  match sendNbCh c, writer (sendPipe c) with
  | Idle, WriteReturned n err => Some (n, err)
  | _, _ => None
  end.

(* ===================================================================== *)
(** ** Frame decoders and the reader loop *)
(* ===================================================================== *)

Definition lenExceeds : error :=
  ProtocolError "len exceeds subprotocol max data frame size".

Definition readSuccessFrame : M unit :=
  bytes <- conn_ReadArray 4 ;;
  let len := Uint32 bytes in
  if len >? subprotoMaxFrameSize then fail lenExceeds
  else
    modify (with_sessionID (make (Z.to_nat len))) ;;
    data <- conn_Read (Z.to_nat len) ;;
    modify (with_sessionID (filled (Z.to_nat len) data)) ;;
    modify (with_connected true).

Definition writeAck (nb : Z) : M unit := conn_Write (makeAckFrame nb).

Definition readAckFrame : M unit :=
  bytes <- conn_ReadArray 8 ;;
  modify (with_sendNbAcked (Uint64 bytes)).

(** [io.LimitedReader{R: c.conn, N: n}.Read(p)] with [len(p) = k]:
    the data and the new [N]. *)
Definition LimitedReader_Read (n : Z) (k : nat) : M (list byte * Z) :=
  if n <=? 0 then fail EOF
  else
    let k := if Z.of_nat k >? n then Z.to_nat n else k in
    data <- conn_Read k ;; ret (data, n - len data).

(** The loop of [io.CopyBuffer(c.recvWriter, &LimitedReader{c.conn, n}, buf)]
    with [len(buf) = k]; neither end has [WriteTo] or [ReadFrom].  A read
    error ends the copy, and [EOF] is not reported as an error. *)
Fixpoint copyBuffer (fuel : nat) (n : Z) (k : nat) (written : Z) : M Z :=
  match fuel with
  | O => outOfFuel
  | S fuel' =>
      r <- attempt (LimitedReader_Read n k) ;;
      match r with
      | inl (data, n') =>
          if 0 <? len data then
            nw <- recvWriter_Write data ;;
            copyBuffer fuel' n' k (written + Z.of_nat nw)
          else copyBuffer fuel' n' k written
      | inr er => if is_EOF er then ret written else fail er
      end
  end.

(** Number of messages and bytes the transport still has to deliver. *)
Definition unreadSize (t : NetConn) : nat :=
  (length (inbound t) + length (concat (inbound t)))%nat.

(** [copyNBuffer(c.recvWriter, c.conn, n, c.recvBuf)].  Every turn of the
    copy loop but the last takes a byte or a message off the transport,
    which bounds the number of turns. *)
Definition copyNBuffer (n : Z) : M Z := fun c =>
  copyBuffer (S (unreadSize (conn c))) n (Z.to_nat subprotoMaxFrameSize) 0 c.

Definition readDataFrame : M unit :=
  bytes <- conn_ReadArray 4 ;;
  let len := Uint32 bytes in
  if len >? subprotoMaxFrameSize then fail lenExceeds
  else
    _ <- copyNBuffer len ;;
    modify (fun c => with_recvNbUnacked (u64 (recvNbUnacked c + len)) c).

Definition expectedSuccess : error :=
  ProtocolError "expected success frame but not did receive one".

Definition readFrame : M unit :=
  bytes <- conn_ReadArray 2 ;;
  let tag := Uint16 bytes in
  if tag =? subprotoTagSuccess then readSuccessFrame
  else
    isConnected <- gets connected ;;
    if negb isConnected then fail expectedSuccess
    else
      if tag =? subprotoTagAck then readAckFrame
      else if tag =? subprotoTagData then
        err <- errorOf readDataFrame ;;
        unacked <- gets recvNbUnacked ;;
        acked <- gets recvNbAcked ;;
        (if u64 (unacked - acked) >? subprotoAckThreshold then
           writeAck unacked ;;
           modify (fun c => with_recvNbAcked (recvNbUnacked c) c)
         else ret tt) ;;
        returnErr err
      else ret tt.

(** [errors.As(err, &closeError)] and the conversion to the package's
    [CloseError]. *)
Definition asCloseError (e : error) : error :=
  match e with
  | WsCloseError code reason => CloseError code reason
  | _ => e
  end.

Definition closeWriters (err : error) : M unit :=
  modify (fun c => with_sendPipe (Pipe_CloseWithError err (sendPipe c)) c) ;;
  modify (fun c => with_recvPipe (Pipe_CloseWithError err (recvPipe c)) c).

(** The loop of [Conn.read], at most [fuel] frames long. *)
Fixpoint read_loop (fuel : nat) : M unit :=
  match fuel with
  | O => outOfFuel
  | S fuel' =>
      err <- errorOf readFrame ;;
      match err with
      | Some e => closeWriters (asCloseError e)
      | None => read_loop fuel'
      end
  end.

(** [Conn.read]: every frame read without error takes at least a byte
    or a message off the transport. *)
Definition read : M unit := fun c =>
  read_loop (S (unreadSize (conn c))) c.

(* ===================================================================== *)
(** ** The writer loop *)
(* ===================================================================== *)

(** The [for nb > 0] loop of [writeFrame]; [nb] drops by at least one at
    every turn. *)
Fixpoint writeFrame_loop (fuel : nat) (nb : Z) : M unit :=
  if nb >? 0 then
    match fuel with
    | O => outOfFuel
    | S fuel' =>
        let writeNb := Z.min nb subprotoMaxFrameSize in
        let nb := nb - writeNb in
        data <- sendReader_Read (Z.to_nat writeNb) ;;
        let buf := filled (Z.to_nat writeNb) data in
        frame <- call (makeDataFrame buf) ;;
        conn_Write frame ;;
        writeFrame_loop fuel' nb
    end
  else ret tt.

Definition writeFrame : M unit :=
  x <- recv_sendNbCh ;;
  let '(nb, ok) := x in
  if negb ok then fail EOF
  else writeFrame_loop (Z.to_nat nb) nb.

(** The loop of [Conn.write], at most [fuel] announcements long. *)
Fixpoint write_loop (fuel : nat) : M unit :=
  match fuel with
  | O => outOfFuel
  | S fuel' =>
      err <- errorOf writeFrame ;;
      match err with
      | Some e => closeWriters (asCloseError e)
      | None => write_loop fuel'
      end
  end.

(** [Conn.write]: one parked sender at most can be served before the
    loop parks on the channel itself. *)
Definition write : M unit := write_loop 2.

(* ===================================================================== *)
(** ** Specification-side vocabulary *)
(* ===================================================================== *)

(** The DATA frame of a payload, as the wire format lays it out. *)
Definition dataFrame (payload : list byte) : list byte :=
  PutUint16 subprotoTagData ++ PutUint32 (len payload) ++ payload.

(** [f] is a DATA frame as the wire format wants it: a payload of at
    most [subprotoMaxFrameSize] bytes behind a 6-byte header that decodes
    to the tag [0x0004] and to the payload's length. *)
Definition wellFormedDataFrame (f : list byte) : Prop :=
  exists payload,
    len payload <= subprotoMaxFrameSize /\
    makeDataFrame payload = Returns f /\
    length (firstn 6 f) = 6%nat /\
    Uint16 (firstn 2 f) = 0x0004 /\
    Uint32 (firstn 4 (skipn 2 f)) = len payload /\
    skipn 6 f = payload.

(** [ceil(n / subprotoMaxFrameSize)] *)
Definition frameCount (n : Z) : Z :=
  (n + (subprotoMaxFrameSize - 1)) / subprotoMaxFrameSize.

(** A transport on which the peer has [msgs] in flight and then closes
    normally, and a tunnel on it before and after the handshake. *)
Definition peer (msgs : list (list byte)) : NetConn :=
  mkNetConn msgs EOF [] 8 (TransportError "write failed").

Definition opening (msgs : list (list byte)) : Conn := newConn (peer msgs).

Definition established (msgs : list (list byte)) : Conn :=
  with_connected true (newConn (peer msgs)).

(** The three flow counters of a [Conn]. *)
Definition counters (c : Conn) : Z * Z * Z :=
  (recvNbAcked c, recvNbUnacked c, sendNbAcked c).

Definition panicked {A} (r : outcome A) : bool :=
  match r with Panicked _ => true | _ => false end.

Definition ranOutOfFuel {A} (r : outcome A) : bool :=
  match r with OutOfFuel => true | _ => false end.

(** [c'] is [c] but for what was taken off the transport and handed to
    the receive pipe. *)
Definition readsOnly (c c' : Conn) : Prop :=
  c' = mkConn (mkNetConn (inbound (conn c')) (inboundErr (conn c))
                         (outbound (conn c)) (writesLeft (conn c))
                         (outboundErr (conn c)))
              (connected c) (sessionID c) (recvNbAcked c) (recvNbUnacked c)
              (mkPipe (werr (recvPipe c)) (writer (recvPipe c))
                      (passed (recvPipe c')))
              (sendNbAcked c) (sendNbCh c) (sendPipe c) /\
  (unreadSize (conn c') <= unreadSize (conn c))%nat.

(** The [case subprotoTagData] arm of [readFrame] under a name of its
    own: decode the frame, then acknowledge if more than
    [subprotoAckThreshold] bytes are unacknowledged. *)
Definition handleDataFrame : M unit :=
  err <- errorOf readDataFrame ;;
  unacked <- gets recvNbUnacked ;;
  acked <- gets recvNbAcked ;;
  (if u64 (unacked - acked) >? subprotoAckThreshold then
     writeAck unacked ;;
     modify (fun c => with_recvNbAcked (recvNbUnacked c) c)
   else ret tt) ;;
  returnErr err.

(** The state after the ACK frame for [recvNbUnacked] went out. *)
Definition acknowledged (m : nat) (c : Conn) : Conn :=
  with_recvNbAcked (recvNbUnacked c)
    (with_conn (mkNetConn (inbound (conn c)) (inboundErr (conn c))
                          (outbound (conn c) ++ [makeAckFrame (recvNbUnacked c)])
                          m (outboundErr (conn c))) c).

(** A pipe closed with [e], and a tunnel torn down with [e]. *)
Definition closedWith (e : error) (c : Conn) : Prop :=
  werr (sendPipe c) = Some e /\ werr (recvPipe c) = Some e.

Definition pipesOpen (c : Conn) : Prop :=
  werr (sendPipe c) = None /\ werr (recvPipe c) = None.


(** The oversize scenario: after the handshake the peer sends a DATA
    header declaring 0x4001 = 16385 bytes. *)
Definition oversizeData : Conn :=
  established [[x00; x04; x00; x00; x40; x01; x61; x62]].

(** A tunnel that is connected already and is sent a SUCCESS frame with
    the session id "abcd". *)
Definition secondSuccess : Conn :=
  with_sessionID [x77; x78] (established
    [[x00; x01; x00; x00; x00; x04; x61; x62; x63; x64]]).

(** A connected tunnel that receives the header of a DATA frame declaring
    5 bytes, then 2 bytes, and then the end of the transport. *)
Definition truncatedData : Conn :=
  established [[x00; x04; x00; x00; x00; x05; x61; x62]].



(** The acknowledgement scenario from the start: the handshake with an
    empty session id, then 32769 bytes in three DATA frames. *)
Definition threeDataFrames : Conn :=
  opening [[x00; x01; x00; x00; x00; x00];
           dataFrame (repeat x61 (Z.to_nat 16384));
           dataFrame (repeat x62 (Z.to_nat 16384));
           dataFrame [x63]].

(* ===================================================================== *)
(** ** Further operations of the package *)
(* ===================================================================== *)

(** [makeSuccessFrame]: panics when [len(sessionID)+6] exceeds
    [math.MaxUint32], else a buffer of [len(sessionID)+6] bytes holding
    the tag [0x0001], [uint32(len(sessionID))] and the session id. *)
Definition makeSuccessFrame (sessionID : list byte) : mayPanic (list byte) :=
  if len sessionID + 6 >? MaxUint32 then Panics "data too large for frame"
  else Returns (PutUint16 subprotoTagSuccess
                  ++ PutUint32 (u32 (len sessionID)) ++ sessionID).

(** [c.closeOnceFunc], the [sync.OnceFunc] of [newConn] around
    [close(c.sendNbCh)].  The channel is closed nowhere else, so the
    function has run before exactly when the channel is closed.  Closing
    the channel under a sender parked on it makes that sender panic, which
    ends the program: the outcome is that panic. *)
Definition closeOnceFunc : M unit := fun c =>
  match sendNbCh c with
  | Closed => (Ok tt, c)
  | Idle => (Ok tt, with_sendNbCh Closed c)
  | Sending _ => (Panicked "send on closed channel", with_sendNbCh Closed c)
  end.

(** [Conn.Close]: [c.closeOnceFunc()] and then [return c.conn.Close()],
    where [connClose] is what the transport's own [Close] returns. *)
Definition Close (connClose : option error) : M unit :=
  closeOnceFunc ;; returnErr connClose.

(** The accessors [Connected], [SessionID], [Sent] and [Received]. *)
Definition Connected (c : Conn) : bool := connected c.
Definition SessionID (c : Conn) : list byte := sessionID c.
Definition Sent (c : Conn) : Z := sendNbAcked c.
Definition Received (c : Conn) : Z := recvNbAcked c.

(** The bytes [Conn.Read] has been handed so far. *)
Definition received (c : Conn) : list byte := passed (recvPipe c).

(** A transport message is gone from the head of the inbound script. *)
Definition with_inbound (ms : list (list byte)) (c : Conn) : Conn :=
  with_conn (mkNetConn ms (inboundErr (conn c)) (outbound (conn c))
                       (writesLeft (conn c)) (outboundErr (conn c))) c.

(** The receive pipe after [p] went through it. *)
Definition with_passed (p : list byte) (c : Conn) : Conn :=
  with_recvPipe (mkPipe (werr (recvPipe c)) (writer (recvPipe c))
                        (passed (recvPipe c) ++ p)) c.

(** What no frame of the reader loop changes: the send side, whether the
    receive pipe is closed, the errors the transport will report, and a
    handshake that has been completed. *)
Definition readerKeeps (c c' : Conn) : Prop :=
  sendPipe c' = sendPipe c /\
  sendNbCh c' = sendNbCh c /\
  werr (recvPipe c') = werr (recvPipe c) /\
  inboundErr (conn c') = inboundErr (conn c) /\
  outboundErr (conn c') = outboundErr (conn c) /\
  (connected c = true -> connected c' = true).

(** Between [c] and [c'] either nothing was written to the transport and
    [recvNbAcked] is as before, or one ACK frame was written, carrying
    the new [recvNbAcked], which is [recvNbUnacked]. *)
Definition atMostOneAck (c c' : Conn) : Prop :=
  (outbound (conn c') = outbound (conn c) /\
   recvNbAcked c' = recvNbAcked c) \/
  (outbound (conn c') = outbound (conn c) ++ [makeAckFrame (recvNbAcked c')] /\
   recvNbAcked c' = recvNbUnacked c').

(* ===================================================================== *)
(** ** The connection URL *)
(* ===================================================================== *)

(** Modelled from the spec: the options record [dialOptions] is declared
    outside the files at hand; the data model lists its string options
    [zone, region, project, port, network, interface, instance, host,
    group] and the boolean [compress].  The token source, a capability,
    plays no part in the URL and is left out. *)
Record dialOptions : Type := mkDialOptions {
  Zone : string;
  Region : string;
  Project : string;
  Port : string;
  Network : string;
  Interface : string;
  Instance : string;
  Host : string;
  Group : string;
  Compress : bool
}.

Definition proxyHost : string := "tunnel.cloudproxy.app".
Definition proxyPath : string := "/v4/connect".

(** [net/url]: the bytes [QueryEscape] leaves as they are, the unreserved
    characters of RFC 3986: letters, digits, [-], [_], [.] and [~]. *)
Definition unreserved (c : ascii) : bool :=
  let n := nat_of_ascii c in
  ((97 <=? n) && (n <=? 122) || (65 <=? n) && (n <=? 90)
   || (48 <=? n) && (n <=? 57)
   || (n =? 45) || (n =? 95) || (n =? 46) || (n =? 126))%nat.

(** ["0123456789ABCDEF"[n]] *)
Definition upperhex (n : nat) : ascii :=
  match String.get n "0123456789ABCDEF" with
  | Some a => a
  | None => "0"%char
  end.

(** [url.QueryEscape]: a space becomes [+], any other byte that is not
    unreserved becomes [%] and its two upper-case hex digits. *)
Fixpoint QueryEscape (s : string) : string :=
  match s with
  | EmptyString => EmptyString
  | String c s' =>
      if Ascii.eqb c " " then String "+" (QueryEscape s')
      else if unreserved c then String c (QueryEscape s')
      else String "%" (String (upperhex (nat_of_ascii c / 16))
                      (String (upperhex (nat_of_ascii c mod 16))
                              (QueryEscape s')))
  end.

(** [url.Values], a [map[string][]string], as the list of its entries;
    keys are unique. *)
Definition Values : Type := list (string * list string).

(** [Values.Del] *)
Definition Values_Del (key : string) (v : Values) : Values :=
  filter (fun kv => negb (String.eqb (fst kv) key)) v.

(** [v[key]] *)
Definition Values_get (key : string) (v : Values) : list string :=
  match find (fun kv => String.eqb (fst kv) key) v with
  | Some kv => snd kv
  | None => []
  end.

(** [slices.Sort] on strings, by insertion. *)
Fixpoint insertSorted (k : string) (l : list string) : list string :=
  match l with
  | [] => [k]
  | x :: r => if String.leb k x then k :: l else x :: insertSorted k r
  end.

Definition sortStrings (l : list string) : list string :=
  fold_right insertSorted [] l.

(** [Values.Encode]: the keys in sorted order, [key=value] for every
    value of a key, both escaped, with [&] between. *)
Definition Values_Encode (v : Values) : string :=
  String.concat "&"
    (flat_map (fun k =>
                 map (fun x => String.append (QueryEscape k)
                                 (String.append "=" (QueryEscape x)))
                     (Values_get k v))
              (sortStrings (map fst v))).

(** [url.URL.String] of a URL that has only [Scheme], [Host], [Path] and
    [RawQuery], with a host and a path that need no escaping and a path
    that starts with [/]. *)
Definition URL_String (scheme host path rawQuery : string) : string :=
  String.append scheme
    (String.append ":"
       (String.append "//"
          (String.append host
             (String.append path
                (if String.eqb rawQuery "" then EmptyString
                 else String.append "?" rawQuery))))).

(** [connectURL]: one entry per option, the entries whose value is empty
    deleted in a [range] over the map, and the rest encoded into the
    query of the proxy's URL. *)
Definition connectURL (dopts : dialOptions) : string :=
  let query : Values :=
    [("zone", [Zone dopts]); ("region", [Region dopts]);
     ("project", [Project dopts]); ("port", [Port dopts]);
     ("network", [Network dopts]); ("interface", [Interface dopts]);
     ("instance", [Instance dopts]); ("host", [Host dopts]);
     ("group", [Group dopts])]%string in
  let query :=
    fold_left (fun q kv =>
                 if String.eqb (hd EmptyString (snd kv)) "" then
                   Values_Del (fst kv) q
                 else q)
              query query in
  URL_String "wss" proxyHost proxyPath (Values_Encode query).

(** The options that are set, by name in alphabetical order. *)
Definition setOptions (dopts : dialOptions) : list (string * string) :=
  filter (fun kv => negb (String.eqb (snd kv) ""))
    [("group", Group dopts); ("host", Host dopts);
     ("instance", Instance dopts); ("interface", Interface dopts);
     ("network", Network dopts); ("port", Port dopts);
     ("project", Project dopts); ("region", Region dopts);
     ("zone", Zone dopts)]%string.

(** The query for the parameters [ps]: [name=value] with the value
    escaped, [&] between. *)
Definition queryOf (ps : list (string * string)) : string :=
  String.concat "&"
    (map (fun kv => String.append (fst kv)
                      (String.append "=" (QueryEscape (snd kv)))) ps).

(** The characters that give a query its structure. *)
Definition delimiter (ch : ascii) : bool :=
  Ascii.eqb ch "&" || Ascii.eqb ch "=" || Ascii.eqb ch "?".

(** How often the character [ch] occurs in [s]. *)
Fixpoint occurrences (ch : ascii) (s : string) : nat :=
  match s with
  | EmptyString => 0
  | String c s' => (if Ascii.eqb c ch then 1 else 0) + occurrences ch s'
  end.

(* ===================================================================== *)
(** ** Facts about the byte order *)
(* ===================================================================== *)

Section BigEndianFacts.

Lemma Z_of_byte_range (b : byte) : 0 <= Z_of_byte b < 256.
Proof.
  unfold Z_of_byte. pose proof (Byte.to_N_bounded b). lia.
Qed.

Lemma Z_of_byte_of_Z (z : Z) : Z_of_byte (byte_of_Z z) = z mod 256.
Proof.
  unfold Z_of_byte, byte_of_Z.
  assert (Hr : 0 <= z mod 256 < 256) by (apply Z.mod_pos_bound; lia).
  destruct (Byte.of_N (Z.to_N (z mod 256))) as [b|] eqn:E.
  - apply Byte.to_of_N in E. rewrite E. lia.
  - apply Byte.of_N_None_iff in E. lia.
Qed.

(** A byte shifted left by a multiple of 8 shares no bit with a value
    that fits below the shift, so [|] adds. *)
Lemma lor_shiftl_add (lo hi : Z) (n : Z) :
  0 <= n -> 0 <= lo < 2 ^ n -> 0 <= hi ->
  Z.lor lo (Z.shiftl hi n) = lo + hi * 2 ^ n.
Proof.
  intros Hn Hlo Hhi.
  pose proof (Z.add_lor_land lo (Z.shiftl hi n)) as Hsum.
  assert (Z.land lo (Z.shiftl hi n) = 0) as Hdisj.
  { apply Z.bits_inj'. intros i Hi.
    rewrite Z.land_spec, Z.bits_0.
    destruct (Z_lt_le_dec i n) as [Hlt|Hge].
    - rewrite Z.shiftl_spec_low by assumption. apply andb_false_r.
    - destruct (Z.eq_dec lo 0) as [->|Hnz].
      + rewrite Z.bits_0. reflexivity.
      + rewrite (Z.bits_above_log2 lo i); [reflexivity | lia |].
        assert (Z.log2 lo < n) by (apply Z.log2_lt_pow2; lia). lia. }
  rewrite Hdisj, Z.add_0_r in Hsum. rewrite Hsum.
  rewrite Z.shiftl_mul_pow2 by assumption. reflexivity.
Qed.

Lemma Uint16_arith (b0 b1 : byte) :
  Uint16 [b0; b1] = Z_of_byte b0 * 256 + Z_of_byte b1.
Proof.
  unfold Uint16, at_. cbn [nth].
  pose proof (Z_of_byte_range b0). pose proof (Z_of_byte_range b1).
  rewrite lor_shiftl_add by lia. lia.
Qed.

Lemma Uint32_arith (b0 b1 b2 b3 : byte) :
  Uint32 [b0; b1; b2; b3] =
  ((Z_of_byte b0 * 256 + Z_of_byte b1) * 256 + Z_of_byte b2) * 256
  + Z_of_byte b3.
Proof.
  unfold Uint32, at_. cbn [nth].
  pose proof (Z_of_byte_range b0). pose proof (Z_of_byte_range b1).
  pose proof (Z_of_byte_range b2). pose proof (Z_of_byte_range b3).
  rewrite (lor_shiftl_add _ _ 8) by lia.
  rewrite (lor_shiftl_add _ _ 16) by lia.
  rewrite (lor_shiftl_add _ _ 24) by lia.
  lia.
Qed.

Lemma Uint16_range (b : list byte) : 0 <= Uint16 b < 2 ^ 16.
Proof.
  unfold Uint16.
  pose proof (Z_of_byte_range (nth 0 b x00)).
  pose proof (Z_of_byte_range (nth 1 b x00)).
  unfold at_. rewrite lor_shiftl_add by lia. lia.
Qed.

Lemma Uint32_range (b : list byte) : 0 <= Uint32 b < 2 ^ 32.
Proof.
  unfold Uint32, at_.
  pose proof (Z_of_byte_range (nth 0 b x00)).
  pose proof (Z_of_byte_range (nth 1 b x00)).
  pose proof (Z_of_byte_range (nth 2 b x00)).
  pose proof (Z_of_byte_range (nth 3 b x00)).
  rewrite (lor_shiftl_add _ _ 8) by lia.
  rewrite (lor_shiftl_add _ _ 16) by lia.
  rewrite (lor_shiftl_add _ _ 24) by lia.
  lia.
Qed.

(** Decoding what [PutUint16] wrote gives the value back. *)
Lemma Uint16_PutUint16 (v : Z) : 0 <= v < 2 ^ 16 -> Uint16 (PutUint16 v) = v.
Proof.
  intros Hv. unfold PutUint16. rewrite Uint16_arith.
  rewrite !Z_of_byte_of_Z, Z.shiftr_div_pow2 by lia.
  change (2 ^ 8) with 256.
  rewrite (Z.mod_small (v / 256)) by
    (split; [apply Z.div_pos; lia | apply Z.div_lt_upper_bound; lia]).
  pose proof (Z.div_mod v 256). lia.
Qed.

(** Decoding what [PutUint32] wrote gives the value back. *)
Lemma Uint32_PutUint32 (v : Z) : 0 <= v < 2 ^ 32 -> Uint32 (PutUint32 v) = v.
Proof.
  intros Hv. unfold PutUint32. rewrite Uint32_arith.
  rewrite !Z_of_byte_of_Z, !Z.shiftr_div_pow2 by lia.
  change (2 ^ 8) with 256. change (2 ^ 16) with (256 * 256).
  change (2 ^ 24) with (256 * (256 * 256)).
  rewrite <- !Z.div_div by lia.
  set (q1 := v / 256). set (q2 := q1 / 256). set (q3 := q2 / 256).
  pose proof (Z.div_mod v 256 ltac:(lia)) as E1. fold q1 in E1.
  pose proof (Z.div_mod q1 256 ltac:(lia)) as E2. fold q2 in E2.
  pose proof (Z.div_mod q2 256 ltac:(lia)) as E3. fold q3 in E3.
  pose proof (Z.mod_pos_bound v 256 ltac:(lia)).
  pose proof (Z.mod_pos_bound q1 256 ltac:(lia)).
  pose proof (Z.mod_pos_bound q2 256 ltac:(lia)).
  assert (0 <= q3 < 256) by lia.
  rewrite (Z.mod_small q3) by assumption. lia.
Qed.

End BigEndianFacts.

(* ===================================================================== *)
(** ** Encoders *)
(* ===================================================================== *)

Section Encoders.

Lemma len_nonneg (s : list byte) : 0 <= len s.
Proof. unfold len. lia. Qed.

Lemma len_app (s t : list byte) : len (s ++ t) = len s + len t.
Proof. unfold len. rewrite length_app. lia. Qed.

Lemma make_length (n : nat) : length (make n) = n.
Proof. apply repeat_length. Qed.

Lemma filled_length (n : nat) (data : list byte) :
  (length data <= n)%nat -> length (filled n data) = n.
Proof.
  intros H. unfold filled. rewrite length_app, make_length. lia.
Qed.

Lemma filled_exact (n : nat) (data : list byte) :
  length data = n -> filled n data = data.
Proof.
  intros H. unfold filled. rewrite H, Nat.sub_diag. apply app_nil_r.
Qed.

Lemma makeDataFrame_small (p : list byte) :
  len p <= subprotoMaxFrameSize -> makeDataFrame p = Returns (dataFrame p).
Proof.
  intros H. unfold makeDataFrame, dataFrame, u32.
  pose proof (len_nonneg p).
  unfold subprotoMaxFrameSize in H.
  destruct (len p + 6 >? MaxUint32) eqn:E.
  - unfold MaxUint32 in E. lia.
  - rewrite Z.mod_small by lia. reflexivity.
Qed.

Lemma dataFrame_wellFormed (p : list byte) :
  len p <= subprotoMaxFrameSize -> wellFormedDataFrame (dataFrame p).
Proof.
  intros H. exists p.
  pose proof (len_nonneg p). unfold subprotoMaxFrameSize in H.
  split; [assumption |].
  split; [apply makeDataFrame_small; assumption |].
  unfold dataFrame, PutUint16, PutUint32.
  cbn [app firstn skipn length].
  repeat split.
  apply (Uint32_PutUint32 (len p)). lia.
Qed.

End Encoders.

(* ===================================================================== *)
(** ** The writer loop *)
(* ===================================================================== *)

Ltac inv H := inversion H; subst; clear H.

Section WriterLoop.

(** A read from the send pipe touches the send pipe only, and returns
    no more than was asked for. *)
Lemma sendReader_Read_inv (k : nat) (c c' : Conn) (r : outcome (list byte)) :
  sendReader_Read k c = (r, c') ->
  c' = with_sendPipe (sendPipe c') c /\
  match r with
  | Ok d => (length d <= k)%nat
  | Err _ | Parked => sendPipe c' = sendPipe c
  | Panicked _ | OutOfFuel => False
  end.
Proof.
  unfold sendReader_Read, Pipe_Read. intros H.
  destruct (werr (sendPipe c)) as [e|].
  - injection H as <- <-. destruct c; split; reflexivity.
  - destruct (writer (sendPipe c)) as [|b n|n err]; injection H as <- <-;
      try (destruct c; split; reflexivity).
    split; [destruct c; reflexivity | apply firstn_le_length].
Qed.

Lemma conn_Write_inv (b : list byte) (c c' : Conn) (r : outcome unit) :
  conn_Write b c = (r, c') ->
  c' = with_conn (conn c') c /\
  inbound (conn c') = inbound (conn c) /\
  match r with
  | Ok _ =>
      outbound (conn c') = outbound (conn c) ++ [b] /\
      S (writesLeft (conn c')) = writesLeft (conn c)
  | Err e =>
      c' = c /\ writesLeft (conn c) = 0%nat /\ e = outboundErr (conn c)
  | _ => False
  end.
Proof.
  unfold conn_Write. intros H.
  destruct (writesLeft (conn c)) eqn:E; injection H as <- <-.
  - destruct c; repeat split; assumption.
  - destruct c; repeat split; cbn in *; congruence.
Qed.

(** Ways a step of a loop proof ends: nothing more was sent. *)
Ltac nothing_sent :=
  exists []; split; [symmetry; apply app_nil_r | constructor].

(** Whatever the announced count and the state of pipe and transport,
    the loop of [writeFrame] does not panic, what it puts on the wire
    are well-formed DATA frames, it leaves the counters alone, and
    [nb] turns are enough for it. *)
Lemma writeFrame_loop_frames (fuel : nat) :
  forall (nb : Z) (c c' : Conn) (r : outcome unit),
    writeFrame_loop fuel nb c = (r, c') ->
    (forall msg, r <> Panicked msg) /\
    (nb <= Z.of_nat fuel -> r <> OutOfFuel) /\
    (exists frames,
        outbound (conn c') = outbound (conn c) ++ frames /\
        Forall wellFormedDataFrame frames) /\
    counters c' = counters c.
Proof.
  induction fuel as [|fuel IH]; intros nb c c' r H.
  - cbn [writeFrame_loop] in H.
    destruct (nb >? 0) eqn:Hnb; inv H;
      (split; [discriminate | split; [try discriminate; lia
       | split; [nothing_sent | reflexivity]]]).
  - cbn [writeFrame_loop] in H.
    destruct (nb >? 0) eqn:Hnb.
    2:{ inv H. split; [discriminate | split; [discriminate
        | split; [nothing_sent | reflexivity]]]. }
    unfold bind at 1 in H.
    destruct (sendReader_Read (Z.to_nat (Z.min nb subprotoMaxFrameSize)) c)
      as [r1 c1] eqn:E1.
    apply sendReader_Read_inv in E1. destruct E1 as [Hc1 Hr1].
    assert (Hsame : conn c1 = conn c /\ counters c1 = counters c).
    { rewrite Hc1. split; reflexivity. }
    destruct Hsame as [Hconn Hcnt].
    destruct r1 as [d| e | | msg |]; try contradiction.
    2,3: inv H; rewrite Hconn; (split; [discriminate | split; [discriminate
        | split; [nothing_sent | assumption]]]).
    unfold bind at 1 in H.
    assert (Hbuf : len (filled (Z.to_nat (Z.min nb subprotoMaxFrameSize)) d)
                   <= subprotoMaxFrameSize).
    { unfold len. rewrite filled_length by assumption.
      unfold subprotoMaxFrameSize. lia. }
    rewrite (makeDataFrame_small _ Hbuf) in H. cbn [call] in H.
    unfold bind at 1 in H.
    match type of H with context [conn_Write ?f c1] =>
      destruct (conn_Write f c1) as [r2 c2] eqn:E2 end.
    apply conn_Write_inv in E2. destruct E2 as (Hc2 & _ & Hr2).
    destruct r2 as [[]| e | | msg |]; try contradiction.
    + destruct Hr2 as [Hout _].
      apply IH in H. destruct H as (Hnp & Hfuel & (frames & Hfr & Hwf) & Hcn).
      split; [assumption | split; [| split]].
      * intros Hle. apply Hfuel. unfold subprotoMaxFrameSize. lia.
      * eexists (_ :: frames). split.
        -- rewrite Hfr, Hout, Hconn, <- app_assoc. reflexivity.
        -- constructor; [apply dataFrame_wellFormed; assumption | assumption].
      * rewrite Hcn, Hc2. assumption.
    + destruct Hr2 as (-> & _ & _). inv H. rewrite Hconn.
      split; [discriminate | split; [discriminate
        | split; [nothing_sent | assumption]]].
Qed.

Lemma recv_sendNbCh_inv (c c' : Conn) (r : outcome (Z * bool)) :
  recv_sendNbCh c = (r, c') ->
  conn c' = conn c /\ counters c' = counters c /\
  match r with
  | Ok (nb, ok) => 0 <= nb
  | Parked => c' = c /\ sendNbCh c = Idle
  | _ => False
  end.
Proof.
  unfold recv_sendNbCh. intros H.
  destruct (sendNbCh c) as [|buf|] eqn:E; injection H as <- <-.
  - repeat split; assumption.
  - repeat split. apply len_nonneg.
  - repeat split. lia.
Qed.

(** [writeFrame] as a whole: no panic, the fuel is enough, only
    well-formed DATA frames go out, the counters stay. *)
Lemma writeFrame_frames (c c' : Conn) (r : outcome unit) :
  writeFrame c = (r, c') ->
  (forall msg, r <> Panicked msg) /\ r <> OutOfFuel /\
  (exists frames,
      outbound (conn c') = outbound (conn c) ++ frames /\
      Forall wellFormedDataFrame frames) /\
  counters c' = counters c.
Proof.
  unfold writeFrame, bind. intros H.
  destruct (recv_sendNbCh c) as [r0 c0] eqn:E0.
  apply recv_sendNbCh_inv in E0. destruct E0 as (Hconn & Hcnt & Hr0).
  destruct r0 as [[nb ok]| e | | msg |]; try contradiction.
  - destruct ok; cbn [negb] in H.
    + apply writeFrame_loop_frames in H.
      destruct H as (Hnp & Hfuel & Hfr & Hcn).
      rewrite <- Hconn, <- Hcnt.
      split; [assumption | split; [apply Hfuel; lia | split; assumption]].
    + inv H. rewrite Hconn.
      split; [discriminate | split; [discriminate
        | split; [nothing_sent | assumption]]].
  - destruct Hr0 as [-> _]. inv H.
    split; [discriminate | split; [discriminate
        | split; [nothing_sent | reflexivity]]].
Qed.

(** The loop of [writeFrame] does not touch the channel. *)
Lemma writeFrame_loop_sendNbCh (fuel : nat) :
  forall (nb : Z) (c : Conn),
    sendNbCh (snd (writeFrame_loop fuel nb c)) = sendNbCh c.
Proof.
  induction fuel as [|fuel IH]; intros nb c; cbn [writeFrame_loop];
    destruct (nb >? 0); try reflexivity.
  unfold bind at 1.
  destruct (sendReader_Read (Z.to_nat (Z.min nb subprotoMaxFrameSize)) c)
    as [r1 c1] eqn:E1.
  apply sendReader_Read_inv in E1. destruct E1 as [Hc1 _].
  assert (Hch1 : sendNbCh c1 = sendNbCh c) by (rewrite Hc1; reflexivity).
  destruct r1 as [d| e | | msg |]; try exact Hch1.
  unfold bind at 1.
  destruct (makeDataFrame (filled (Z.to_nat (Z.min nb subprotoMaxFrameSize)) d))
    as [f|msg]; cbn [call]; [| exact Hch1].
  unfold bind at 1.
  destruct (conn_Write f c1) as [r2 c2] eqn:E2.
  apply conn_Write_inv in E2. destruct E2 as (Hc2 & _ & _).
  assert (Hch2 : sendNbCh c2 = sendNbCh c)
    by (rewrite Hc2; cbn; exact Hch1).
  destruct r2 as [[]| e | | msg |]; try exact Hch2.
  rewrite IH. exact Hch2.
Qed.

(** [Conn.write] never hits its bound: once it has served the sender
    parked on the channel the channel is idle, and the loop parks. *)
Lemma write_total (c : Conn) : ranOutOfFuel (fst (write c)) = false.
Proof.
  unfold write. cbn [write_loop]. unfold bind at 1, errorOf.
  destruct (writeFrame c) as [r c1] eqn:E.
  pose proof (writeFrame_frames _ _ _ E) as (_ & Hfuel & _).
  destruct r as [[]| e | | msg |]; try reflexivity; [| congruence].
  assert (Hidle : sendNbCh c1 = Idle).
  { unfold writeFrame, bind, recv_sendNbCh in E.
    destruct (sendNbCh c) as [|buf|] eqn:Ech; try discriminate.
    cbn [negb] in E.
    match type of E with writeFrame_loop ?f ?nb ?c0 = _ =>
      pose proof (writeFrame_loop_sendNbCh f nb c0) as H end.
    rewrite E in H. exact H. }
  unfold bind, errorOf, writeFrame, bind, recv_sendNbCh.
  rewrite Hidle. reflexivity.
Qed.

End WriterLoop.

(** What one application write looks like on the wire. *)
Section WriteChunking.

Lemma frameCount_0 : frameCount 0 = 0.
Proof. reflexivity. Qed.






End WriteChunking.

Section WriterClaims.




(** The state in which the writer loop finds the tunnel when it takes
    the announcement of [Conn.Write(buf)] off the channel. *)
Lemma Write_then_recv (buf : list byte) (c : Conn) :
  sendNbCh c = Idle ->
  werr (sendPipe c) = None ->
  (Conn_Write buf ;; recv_sendNbCh) c =
  (Ok (len buf, true),
   with_sendPipe (mkPipe None (Offering buf 0) (passed (sendPipe c))) c).
Proof.
  intros Hch Hw. unfold bind, Conn_Write, recv_sendNbCh, Pipe_offer.
  rewrite Hch. cbn. rewrite Hw, <- Hch. destruct c; reflexivity.
Qed.

Lemma Write_then_writeFrame (buf : list byte) (c : Conn) :
  sendNbCh c = Idle ->
  werr (sendPipe c) = None ->
  (Conn_Write buf ;; writeFrame) c =
  writeFrame_loop (Z.to_nat (len buf)) (len buf)
    (with_sendPipe (mkPipe None (Offering buf 0) (passed (sendPipe c))) c).
Proof.
  intros Hch Hw.
  pose proof (Write_then_recv buf c Hch Hw) as H.
  unfold writeFrame, bind in *.
  destruct (Conn_Write buf c) as [[[]| | | |] c0]; try discriminate.
  rewrite H. reflexivity.
Qed.

End WriterClaims.



Example Write_split_20000 :
  map (fun f => len (skipn 6 f))
      (outbound (conn (snd ((Conn_Write (repeat xaa (Z.to_nat 20000)) ;; writeFrame)
                              (established [])))))
  = [16384; 3616].
Proof. vm_compute. reflexivity. Qed.

(** C9.  A write of an empty buffer on an open tunnel announces 0 and the
    writer loop emits no frame for it, but the call does not return: it
    stays parked in the send pipe offering its empty buffer, while the
    writer loop parks on the channel waiting for the next announcement. *)
Theorem Write_empty_parks (c : Conn) :
  sendNbCh c = Idle ->
  werr (sendPipe c) = None ->
  exists c',
    (Conn_Write [] ;; writeFrame) c = (Ok tt, c') /\
    outbound (conn c') = outbound (conn c) /\
    writer (sendPipe c') = Offering [] 0 /\
    Write_result c' = None /\
    write c' = (Parked, c').
Proof.
  intros Hch Hw.
  rewrite (Write_then_writeFrame [] c Hch Hw). cbn.
  eexists. split; [reflexivity |].
  split; [reflexivity |].
  split; [reflexivity |].
  split; [unfold Write_result; cbn; rewrite Hch; reflexivity |].
  unfold bind, errorOf, writeFrame, bind, recv_sendNbCh.
  cbn. rewrite Hch. reflexivity.
Qed.

Lemma Write_empty_parks_witness :
  exists c',
    (Conn_Write [] ;; writeFrame) (established []) = (Ok tt, c') /\
    outbound (conn c') = outbound (conn (established [])) /\
    writer (sendPipe c') = Offering [] 0 /\
    Write_result c' = None /\
    write c' = (Parked, c').
Proof.
  apply (Write_empty_parks (established [])); reflexivity.
Defined.

(** C10.  The panic of [makeDataFrame] cannot be reached from the writer
    loop: in every state [writeFrame] ends without panicking (and within
    its bound), and every buffer it has put on the wire is a payload of
    at most 16384 bytes behind the 6-byte big-endian header of tag 0x0004
    and 4-byte length equal to the payload's. *)
Theorem makeDataFrame_panic_unreachable (c : Conn) :
  panicked (fst (writeFrame c)) = false /\
  ranOutOfFuel (fst (writeFrame c)) = false /\
  exists frames,
    outbound (conn (snd (writeFrame c))) = outbound (conn c) ++ frames /\
    Forall wellFormedDataFrame frames.
Proof.
  destruct (writeFrame c) as [r c'] eqn:E.
  apply writeFrame_frames in E. destruct E as (Hnp & Hfuel & Hfr & _).
  cbn [fst snd]. split; [| split; [| exact Hfr]].
  - destruct r; try reflexivity. exfalso. eapply Hnp. reflexivity.
  - destruct r; try reflexivity. exfalso. apply Hfuel. reflexivity.
Qed.

(* ===================================================================== *)
(** ** The reader loop *)
(* ===================================================================== *)

Section ReaderPrimitives.

Lemma readsOnly_refl (c : Conn) : readsOnly c c.
Proof.
  split; [| apply le_n].
  destruct c as [[] ? ? ? ? [] ? ? ?]; reflexivity.
Qed.

Lemma readsOnly_trans (c1 c2 c3 : Conn) :
  readsOnly c1 c2 -> readsOnly c2 c3 -> readsOnly c1 c3.
Proof.
  intros [H12 L12] [H23 L23]. split; [| lia].
  rewrite H23. rewrite H12. reflexivity.
Qed.

(** What a [readsOnly] step leaves as it was. *)
Lemma readsOnly_fields (c c' : Conn) :
  readsOnly c c' ->
  connected c' = connected c /\
  counters c' = counters c /\
  outbound (conn c') = outbound (conn c) /\
  writesLeft (conn c') = writesLeft (conn c) /\
  outboundErr (conn c') = outboundErr (conn c) /\
  werr (recvPipe c') = werr (recvPipe c) /\
  sendPipe c' = sendPipe c /\
  sessionID c' = sessionID c.
Proof.
  intros [H _]. rewrite H. cbn. repeat split.
Qed.

Lemma counters_eq (c c' : Conn) :
  counters c' = counters c ->
  recvNbAcked c' = recvNbAcked c /\
  recvNbUnacked c' = recvNbUnacked c /\
  sendNbAcked c' = sendNbAcked c.
Proof.
  unfold counters. intros H. injection H as -> -> ->. repeat split.
Qed.

Lemma unreadSize_cons (m : list byte) (ms : list (list byte))
      (e1 e2 : error) (o : list (list byte)) (w : nat) :
  unreadSize (mkNetConn (m :: ms) e1 o w e2) =
  (S (length m) + unreadSize (mkNetConn ms e1 o w e2))%nat.
Proof.
  unfold unreadSize. cbn. rewrite length_app. lia.
Qed.

(** A read from the transport changes its inbound side only; one that
    asks for at least a byte and gets no error shrinks what is unread. *)
Lemma conn_Read_inv (k : nat) (c c' : Conn) (r : outcome (list byte)) :
  conn_Read k c = (r, c') ->
  readsOnly c c' /\
  passed (recvPipe c') = passed (recvPipe c) /\
  match r with
  | Ok d =>
      (length d <= k)%nat /\
      ((0 < k)%nat -> (unreadSize (conn c') < unreadSize (conn c))%nat)
  | Err e => c' = c /\ e = inboundErr (conn c) /\ inbound (conn c) = []
  | _ => False
  end.
Proof.
  unfold conn_Read. intros H.
  destruct c as [[inb ie ob wl oe] cn sid ra ru [rw rwr rp] sa ch sp].
  cbn in H. destruct inb as [|m ms]; injection H as <- <-.
  - split; [apply readsOnly_refl | repeat split].
  - assert (Hm : (length (skipn k m) <= length m)%nat /\
                 ((0 < k)%nat -> skipn k m <> [] ->
                  (length (skipn k m) < length m)%nat)).
    { rewrite length_skipn. split; [lia |]. intros Hk Hne.
      assert (length (skipn k m) <> 0)%nat
        by (destruct (skipn k m); [congruence | discriminate]).
      rewrite length_skipn in *. lia. }
    destruct Hm as [Hle Hlt].
    unfold readsOnly.
    cbn [conn recvPipe passed inbound inboundErr outbound writesLeft
         outboundErr with_conn].
    rewrite (unreadSize_cons m).
    destruct (skipn k m) as [|y rest] eqn:Esk.
    + split; [split; [reflexivity | lia] |].
      split; [reflexivity |].
      split; [apply firstn_le_length | intros; lia].
    + rewrite unreadSize_cons.
      split; [split; [reflexivity | lia] |].
      split; [reflexivity |].
      split; [apply firstn_le_length |].
      intros Hk. specialize (Hlt Hk ltac:(discriminate)). lia.
Qed.

Lemma conn_ReadArray_inv (k : nat) (c c' : Conn) (r : outcome (list byte)) :
  conn_ReadArray k c = (r, c') ->
  readsOnly c c' /\
  passed (recvPipe c') = passed (recvPipe c) /\
  match r with
  | Ok bytes =>
      length bytes = k /\
      ((0 < k)%nat -> (unreadSize (conn c') < unreadSize (conn c))%nat)
  | Err e => c' = c /\ e = inboundErr (conn c) /\ inbound (conn c) = []
  | _ => False
  end.
Proof.
  unfold conn_ReadArray, bind, ret. intros H.
  destruct (conn_Read k c) as [r0 c0] eqn:E.
  apply conn_Read_inv in E. destruct E as (Hro & Hp & Hr).
  destruct r0; injection H as <- <-; try contradiction.
  - destruct Hr as [Hlen Hlt].
    split; [exact Hro | split; [exact Hp | split; [| exact Hlt]]].
    apply filled_length, Hlen.
  - split; [exact Hro | split; [exact Hp | exact Hr]].
Qed.

Lemma recvWriter_Write_inv (b : list byte) (c c' : Conn) (r : outcome nat) :
  recvWriter_Write b c = (r, c') ->
  readsOnly c c' /\
  conn c' = conn c /\
  match r with
  | Ok nw =>
      nw = length b /\ passed (recvPipe c') = passed (recvPipe c) ++ b
  | Err e => c' = c /\ e = ErrClosedPipe
  | _ => False
  end.
Proof.
  unfold recvWriter_Write, Pipe_Write. intros H.
  destruct c as [[inb ie ob wl oe] cn sid ra ru [rw rwr rp] sa ch sp].
  cbn in H. destruct rw as [e|]; injection H as <- <-.
  - split; [apply readsOnly_refl | repeat split].
  - split; [split; [reflexivity | apply le_n] |].
    split; [reflexivity | split; reflexivity].
Qed.

End ReaderPrimitives.

Section CopyN.

(** The copy loop: it only takes from the transport and hands to the
    receive pipe; the fuel [copyNBuffer] gives it is enough; it never
    parks or panics; when it reports no error it has handed over as many
    bytes as it reports, at most the limit [n]. *)
Lemma copyBuffer_inv (fuel : nat) :
  forall (n : Z) (k : nat) (written : Z) (c c' : Conn) (r : outcome Z),
    (0 < k)%nat ->
    copyBuffer fuel n k written c = (r, c') ->
    readsOnly c c' /\
    ((unreadSize (conn c) < fuel)%nat -> r <> OutOfFuel) /\
    match r with
    | Ok w =>
        written <= w <= written + Z.max 0 n /\
        len (passed (recvPipe c')) = len (passed (recvPipe c)) + (w - written)
    | Err _ | OutOfFuel => True
    | Parked | Panicked _ => False
    end.
Proof.
  induction fuel as [|fuel IH]; intros n k written c c' r Hk H.
  - injection H as <- <-.
    split; [apply readsOnly_refl | split; [lia | exact I]].
  - cbn [copyBuffer] in H. unfold bind at 1, attempt, LimitedReader_Read in H.
    destruct (n <=? 0) eqn:Hn.
    + cbn in H. injection H as <- <-.
      split; [apply readsOnly_refl | split; [discriminate | lia]].
    + unfold bind at 1 in H.
      match type of H with context [conn_Read ?k' c] =>
        set (k0 := k') in *; destruct (conn_Read k0 c) as [r1 c1] eqn:E1 end.
      assert (Hk0 : (0 < k0)%nat).
      { unfold k0. destruct (Z.of_nat k >? n); lia. }
      assert (Hk0n : Z.of_nat k0 <= n).
      { unfold k0. destruct (Z.of_nat k >? n) eqn:E; lia. }
      apply conn_Read_inv in E1. destruct E1 as (Hro1 & Hp1 & Hr1).
      destruct r1 as [d| e | | msg |]; try contradiction.
      * destruct Hr1 as [Hd Hlt]. specialize (Hlt Hk0).
        cbn [ret] in H.
        destruct (0 <? len d) eqn:Hd0.
        -- unfold bind at 1 in H.
           destruct (recvWriter_Write d c1) as [r2 c2] eqn:E2.
           apply recvWriter_Write_inv in E2.
           destruct E2 as (Hro2 & Hconn2 & Hr2).
           destruct r2 as [nw| e | | msg |]; try contradiction.
           ++ destruct Hr2 as [-> Hp2].
              apply IH in H; [| exact Hk].
              destruct H as (Hro3 & Hfuel & Hr3).
              split; [eauto using readsOnly_trans |].
              split; [intros Hf; apply Hfuel; rewrite Hconn2; lia |].
              destruct r; try exact I; try contradiction.
              destruct Hr3 as [Hw Hp3]. rewrite Hp3, Hp2, Hp1, len_app.
              unfold len in *. split; lia.
           ++ destruct Hr2 as [-> ->]. injection H as <- <-.
              split; [exact Hro1 | split; [discriminate | exact I]].
        -- assert (d = []) as ->.
           { destruct d; [reflexivity | unfold len in Hd0; cbn in Hd0; lia]. }
           apply IH in H; [| exact Hk].
           destruct H as (Hro3 & Hfuel & Hr3).
           split; [eauto using readsOnly_trans |].
           split; [intros Hf; apply Hfuel; lia |].
           destruct r; try exact I; try contradiction.
           destruct Hr3 as [Hw Hp3]. rewrite Hp3, Hp1.
           change (len []) with 0 in Hw. split; lia.
      * destruct Hr1 as (-> & -> & _).
        destruct (is_EOF (inboundErr (conn c))); injection H as <- <-.
        -- split; [apply readsOnly_refl | split; [discriminate | lia]].
        -- split; [apply readsOnly_refl | split; [discriminate | exact I]].
Qed.

Lemma copyNBuffer_inv (n : Z) (c c' : Conn) (r : outcome Z) :
  copyNBuffer n c = (r, c') ->
  readsOnly c c' /\
  match r with
  | Ok w =>
      0 <= w <= Z.max 0 n /\
      len (passed (recvPipe c')) = len (passed (recvPipe c)) + w
  | Err _ => True
  | _ => False
  end.
Proof.
  unfold copyNBuffer. intros H.
  apply copyBuffer_inv in H; [| unfold subprotoMaxFrameSize; lia].
  destruct H as (Hro & Hfuel & Hr).
  split; [exact Hro |].
  destruct r; try exact I; try contradiction.
  - destruct Hr as [Hw Hp]. split; lia.
  - apply Hfuel; [lia | reflexivity].
Qed.

Lemma conn_Read_concat (k : nat) (c c1 : Conn) (data : list byte) :
  conn_Read k c = (Ok data, c1) ->
  concat (inbound (conn c)) = data ++ concat (inbound (conn c1)).
Proof.
  unfold conn_Read. intros H.
  destruct (inbound (conn c)) as [|m ms]; [discriminate |].
  injection H as <- <-. cbn [conn with_conn inbound concat].
  rewrite <- (firstn_skipn k m) at 1. rewrite <- app_assoc.
  destruct (skipn k m); reflexivity.
Qed.

Lemma recvWriter_Write_open (b : list byte) (c : Conn) :
  werr (recvPipe c) = None ->
  recvWriter_Write b c =
  (Ok (length b),
   with_recvPipe (mkPipe None (writer (recvPipe c)) (passed (recvPipe c) ++ b)) c).
Proof.
  intros H. unfold recvWriter_Write, Pipe_Write. rewrite H. reflexivity.
Qed.

(** With the receive pipe open and at least [n] bytes still to come, in
    however many messages, the copy hands over exactly the next [n]
    bytes of the transport and leaves what follows them unread. *)
Lemma copyBuffer_exact (fuel : nat) :
  forall (n : Z) (k : nat) (written : Z) (c : Conn),
    (0 < k)%nat ->
    0 <= n <= len (concat (inbound (conn c))) ->
    werr (recvPipe c) = None ->
    (unreadSize (conn c) < fuel)%nat ->
    exists c',
      copyBuffer fuel n k written c = (Ok (written + n), c') /\
      readsOnly c c' /\
      passed (recvPipe c') =
        passed (recvPipe c) ++ firstn (Z.to_nat n) (concat (inbound (conn c))) /\
      concat (inbound (conn c')) =
        skipn (Z.to_nat n) (concat (inbound (conn c))).
Proof.
  induction fuel as [|fuel IH]; intros n k written c Hk Hn Hopen Hfuel; [lia |].
  cbn [copyBuffer]. unfold bind at 1, attempt, LimitedReader_Read.
  destruct (n <=? 0) eqn:Hn0.
  - assert (n = 0) as -> by lia. exists c. cbn.
    rewrite Z.add_0_r, app_nil_r.
    split; [reflexivity | split; [apply readsOnly_refl | split; reflexivity]].
  - unfold bind at 1.
    match goal with |- context [conn_Read ?k' c] =>
      set (k0 := k') in *; destruct (conn_Read k0 c) as [r1 c1] eqn:E1 end.
    assert (Hk0 : (0 < k0)%nat /\ Z.of_nat k0 <= n).
    { unfold k0. destruct (Z.of_nat k >? n) eqn:E; lia. }
    pose proof (conn_Read_inv _ _ _ _ E1) as (Hro1 & Hp1 & Hr1).
    destruct (readsOnly_fields _ _ Hro1) as (_ & _ & _ & _ & _ & Hwe1 & _).
    destruct r1 as [d| e | | msg |]; try contradiction.
    2:{ destruct Hr1 as (_ & _ & Hnil). rewrite Hnil in Hn. cbn in Hn. lia. }
    destruct Hr1 as [Hd Hlt]. specialize (Hlt (proj1 Hk0)).
    pose proof (conn_Read_concat _ _ _ _ E1) as Hcat.
    cbn [ret].
    assert (Hn' : 0 <= n - len d <= len (concat (inbound (conn c1)))).
    { rewrite Hcat, len_app in Hn. unfold len in *. lia. }
    assert (Hfirst : firstn (Z.to_nat n) (concat (inbound (conn c))) =
                     d ++ firstn (Z.to_nat (n - len d))
                                 (concat (inbound (conn c1)))).
    { rewrite Hcat.
      replace (Z.to_nat n) with (length d + Z.to_nat (n - len d))%nat
        by (unfold len in *; lia).
      apply firstn_app_2. }
    assert (Hskip : skipn (Z.to_nat n) (concat (inbound (conn c))) =
                    skipn (Z.to_nat (n - len d)) (concat (inbound (conn c1)))).
    { rewrite Hcat, skipn_app.
      rewrite skipn_all2 by (unfold len in *; lia).
      replace (Z.to_nat n - length d)%nat with (Z.to_nat (n - len d))
        by (unfold len in *; lia).
      reflexivity. }
    destruct (0 <? len d) eqn:Hd0.
    + unfold bind at 1.
      rewrite (recvWriter_Write_open d c1) by congruence.
      match goal with |- context [copyBuffer fuel _ _ _ ?c2] =>
        destruct (IH (n - len d) k (written + Z.of_nat (length d)) c2 Hk)
          as (c' & Hrun & Hro2 & Hp2 & Hcat2)
      end; try (cbn; assumption); try reflexivity.
      * cbn. lia.
      * exists c'. rewrite Hrun. cbn in Hp2, Hcat2.
        split; [f_equal; f_equal; unfold len; lia |].
        split.
        { eapply readsOnly_trans; [exact Hro1 |].
          eapply readsOnly_trans; [| exact Hro2].
          destruct Hro1 as [Hc1 _]. split; [| apply le_n].
          rewrite Hc1. cbn. rewrite Hopen. reflexivity. }
        split; [rewrite Hp2, Hp1, Hfirst, app_assoc; reflexivity |].
        rewrite Hcat2, Hskip. reflexivity.
    + assert (d = []) as ->.
      { destruct d; [reflexivity | unfold len in Hd0; cbn in Hd0; lia]. }
      change (len []) with 0 in *. rewrite Z.sub_0_r in *.
      destruct (IH n k written c1 Hk Hn' ltac:(congruence) ltac:(lia))
        as (c' & Hrun & Hro2 & Hp2 & Hcat2).
      exists c'. rewrite Hrun.
      split; [reflexivity |].
      split; [eauto using readsOnly_trans |].
      split; [rewrite Hp2, Hp1, Hfirst; reflexivity |].
      rewrite Hcat2, Hskip. reflexivity.
Qed.

(** The decoder of a DATA frame whose header and payload the peer has
    sent in full: the declared [L] bytes, no more and no fewer, go from
    the transport into the receive pipe, and [recvNbUnacked] grows by
    [L]. *)
Lemma readDataFrame_exact (c c1 : Conn) (bytes : list byte) :
  conn_ReadArray 4 c = (Ok bytes, c1) ->
  Uint32 bytes <= subprotoMaxFrameSize ->
  Uint32 bytes <= len (concat (inbound (conn c1))) ->
  werr (recvPipe c) = None ->
  exists c',
    readDataFrame c = (Ok tt, c') /\
    passed (recvPipe c') =
      passed (recvPipe c) ++
      firstn (Z.to_nat (Uint32 bytes)) (concat (inbound (conn c1))) /\
    concat (inbound (conn c')) =
      skipn (Z.to_nat (Uint32 bytes)) (concat (inbound (conn c1))) /\
    recvNbUnacked c' = u64 (recvNbUnacked c + Uint32 bytes).
Proof.
  intros Hlen Hsmall Havail Hopen.
  pose proof (conn_ReadArray_inv _ _ _ _ Hlen) as (Hro1 & Hp1 & _).
  destruct (readsOnly_fields _ _ Hro1) as (_ & Hcnt & _ & _ & _ & Hwe1 & _).
  apply counters_eq in Hcnt. destruct Hcnt as (_ & Hru & _).
  pose proof (Uint32_range bytes) as Hrange.
  destruct (copyBuffer_exact (S (unreadSize (conn c1))) (Uint32 bytes)
              (Z.to_nat subprotoMaxFrameSize) 0 c1)
    as (c2 & Hrun & Hro2 & Hp2 & Hcat2);
    try (unfold subprotoMaxFrameSize; lia); try congruence.
  destruct (readsOnly_fields _ _ Hro2) as (_ & Hcnt2 & _).
  apply counters_eq in Hcnt2. destruct Hcnt2 as (_ & Hru2 & _).
  exists (with_recvNbUnacked (u64 (recvNbUnacked c2 + Uint32 bytes)) c2).
  split.
  - unfold readDataFrame. unfold bind at 1. rewrite Hlen.
    destruct (Uint32 bytes >? subprotoMaxFrameSize) eqn:E; [lia |].
    unfold bind at 1, copyNBuffer. rewrite Hrun. reflexivity.
  - cbn. split; [rewrite Hp2, Hp1; reflexivity |].
    split; [exact Hcat2 | congruence].
Qed.

End CopyN.

Section Decoders.

(** [readDataFrame]: it returns, with or without error; on an error the
    counters are as before; without one, [recvNbUnacked] has grown by
    the declared length [L], at most [subprotoMaxFrameSize], and [w]
    bytes, at most [L], went into the receive pipe. *)
Lemma readDataFrame_inv (c c' : Conn) (r : outcome unit) :
  readDataFrame c = (r, c') ->
  match r with
  | Ok _ =>
      exists c0 L w,
        readsOnly c c0 /\
        (unreadSize (conn c0) < unreadSize (conn c))%nat /\
        0 <= L <= subprotoMaxFrameSize /\
        0 <= w <= L /\
        len (passed (recvPipe c0)) = len (passed (recvPipe c)) + w /\
        c' = with_recvNbUnacked (u64 (recvNbUnacked c + L)) c0
  | Err _ => readsOnly c c'
  | _ => False
  end.
Proof.
  unfold readDataFrame. unfold bind at 1. intros H.
  destruct (conn_ReadArray 4 c) as [r1 c1] eqn:E1.
  apply conn_ReadArray_inv in E1. destruct E1 as (Hro1 & Hp1 & Hr1).
  destruct r1 as [bytes| e | | msg |]; try contradiction.
  2:{ injection H as <- <-. exact Hro1. }
  destruct Hr1 as [_ Hlt]. specialize (Hlt ltac:(lia)).
  pose proof (Uint32_range bytes) as Hrange.
  destruct (Uint32 bytes >? subprotoMaxFrameSize) eqn:Hbig.
  { injection H as <- <-. exact Hro1. }
  unfold bind at 1 in H.
  destruct (copyNBuffer (Uint32 bytes) c1) as [r2 c2] eqn:E2.
  apply copyNBuffer_inv in E2. destruct E2 as (Hro2 & Hr2).
  destruct r2 as [w| e | | msg |]; try contradiction.
  - injection H as <- <-. destruct Hr2 as [Hw Hp2].
    exists c2, (Uint32 bytes), w.
    split; [eauto using readsOnly_trans |].
    split; [destruct Hro2 as [_ Hle]; lia |].
    split; [lia |]. split; [lia |].
    split; [rewrite Hp2, Hp1; reflexivity |].
    destruct Hro2 as [Hc2 _]. destruct Hro1 as [Hc1 _].
    rewrite Hc2, Hc1. reflexivity.
  - injection H as <- <-. eauto using readsOnly_trans.
Qed.

(** [readSuccessFrame]: it returns, with or without error, and beyond
    reading it only sets [sessionID] and [connected]. *)
Lemma readSuccessFrame_inv (c c' : Conn) (r : outcome unit) :
  readSuccessFrame c = (r, c') ->
  exists c0 sid,
    readsOnly c c0 /\
    match r with
    | Ok _ =>
        c' = with_connected true (with_sessionID sid c0) /\
        (unreadSize (conn c0) < unreadSize (conn c))%nat
    | Err _ => c' = with_sessionID sid c0
    | _ => False
    end.
Proof.
  unfold readSuccessFrame. unfold bind at 1. intros H.
  destruct (conn_ReadArray 4 c) as [r1 c1] eqn:E1.
  apply conn_ReadArray_inv in E1. destruct E1 as (Hro1 & Hp1 & Hr1).
  destruct r1 as [bytes| e | | msg |]; try contradiction.
  2:{ injection H as <- <-. exists c1, (sessionID c).
      split; [exact Hro1 |]. destruct Hro1 as [Hc1 _].
      rewrite Hc1. reflexivity. }
  destruct Hr1 as [_ Hlt]. specialize (Hlt ltac:(lia)).
  destruct (Uint32 bytes >? subprotoMaxFrameSize) eqn:Hbig.
  { injection H as <- <-. exists c1, (sessionID c).
    split; [exact Hro1 |]. destruct Hro1 as [Hc1 _].
    rewrite Hc1. reflexivity. }
  unfold bind at 1, modify at 1 in H. unfold bind at 1 in H.
  match type of H with context [conn_Read ?k ?c1'] =>
    destruct (conn_Read k c1') as [r2 c2] eqn:E2 end.
  apply conn_Read_inv in E2. destruct E2 as (Hro2 & Hp2 & Hr2).
  assert (Hro : readsOnly c (with_sessionID (sessionID c) c2)).
  { destruct Hro2 as [Hc2 Hle2]. destruct Hro1 as [Hc1 Hle1].
    split; [| cbn [conn with_sessionID] in *; lia].
    rewrite Hc2, Hc1. reflexivity. }
  assert (Hc2 : forall sid, with_sessionID sid c2 =
                            with_sessionID sid (with_sessionID (sessionID c) c2))
    by reflexivity.
  destruct r2 as [d| e | | msg |]; try contradiction.
  - cbn in H. injection H as <- <-.
    exists (with_sessionID (sessionID c) c2),
           (filled (Z.to_nat (Uint32 bytes)) d).
    split; [exact Hro |]. split; [reflexivity |].
    destruct Hro2 as [_ Hle2]. cbn [conn with_sessionID] in *. lia.
  - injection H as <- <-. destruct Hr2 as (-> & _ & _).
    exists (with_sessionID (sessionID c) c1), (make (Z.to_nat (Uint32 bytes))).
    split; [| reflexivity].
    destruct Hro1 as [Hc1 Hle1].
    split; [| cbn [conn with_sessionID] in *; lia].
    rewrite Hc1. reflexivity.
Qed.

(** [readAckFrame]: without error it stores the count it read in
    [sendNbAcked] and does nothing else. *)
Lemma readAckFrame_inv (c c' : Conn) (r : outcome unit) :
  readAckFrame c = (r, c') ->
  match r with
  | Ok _ =>
      exists c0 bytes,
        conn_ReadArray 8 c = (Ok bytes, c0) /\
        readsOnly c c0 /\
        (unreadSize (conn c0) < unreadSize (conn c))%nat /\
        c' = with_sendNbAcked (Uint64 bytes) c0
  | Err _ => c' = c
  | _ => False
  end.
Proof.
  unfold readAckFrame, bind. intros H.
  destruct (conn_ReadArray 8 c) as [r1 c1] eqn:E1.
  pose proof (conn_ReadArray_inv _ _ _ _ E1) as (Hro1 & Hp1 & Hr1).
  destruct r1 as [bytes| e | | msg |]; try contradiction;
    injection H as <- <-.
  - exists c1, bytes. destruct Hr1 as [_ Hlt].
    split; [reflexivity | split; [exact Hro1 | split; [lia | reflexivity]]].
  - apply Hr1.
Qed.

End Decoders.

Section Dispatch.

(** [readFrame] after its tag has been read. *)
Lemma readFrame_tag (c c1 : Conn) (bytes : list byte) :
  conn_ReadArray 2 c = (Ok bytes, c1) ->
  readFrame c =
  if Uint16 bytes =? subprotoTagSuccess then readSuccessFrame c1
  else if negb (connected c1) then (Err expectedSuccess, c1)
  else if Uint16 bytes =? subprotoTagAck then readAckFrame c1
  else if Uint16 bytes =? subprotoTagData then handleDataFrame c1
  else (Ok tt, c1).
Proof.
  intros H. unfold readFrame. unfold bind at 1. rewrite H.
  destruct (Uint16 bytes =? subprotoTagSuccess); [reflexivity |].
  unfold bind at 1, gets at 1.
  destruct (connected c1); cbn [negb]; [| reflexivity].
  destruct (Uint16 bytes =? subprotoTagAck); [reflexivity |].
  destruct (Uint16 bytes =? subprotoTagData); reflexivity.
Qed.

Lemma readFrame_no_tag (c c1 : Conn) (e : error) :
  conn_ReadArray 2 c = (Err e, c1) -> readFrame c = (Err e, c1).
Proof.
  intros H. unfold readFrame. unfold bind at 1. rewrite H. reflexivity.
Qed.

(** The DATA case spelled out: the decoder runs, and its result is
    returned unless an acknowledgement is due and cannot be written. *)
Lemma handleDataFrame_inv (c c' : Conn) (r : outcome unit) :
  handleDataFrame c = (r, c') ->
  exists c2 r2,
    readDataFrame c = (r2, c2) /\
    (r2 = Ok tt \/ exists e, r2 = Err e) /\
    if u64 (recvNbUnacked c2 - recvNbAcked c2) >? subprotoAckThreshold then
      match writesLeft (conn c2) with
      | S m => c' = acknowledged m c2 /\ r = r2
      | O => c' = c2 /\ r = Err (outboundErr (conn c2))
      end
    else c' = c2 /\ r = r2.
Proof.
  unfold handleDataFrame. unfold bind at 1, errorOf. intros H.
  destruct (readDataFrame c) as [r2 c2] eqn:E2.
  pose proof (readDataFrame_inv _ _ _ E2) as Hr2.
  exists c2, r2. split; [reflexivity |].
  assert (Hcases : r2 = Ok tt \/ exists e, r2 = Err e).
  { destruct r2 as [[]| e | | |]; try contradiction; eauto. }
  split; [exact Hcases |].
  assert (H' : (unacked <- gets recvNbUnacked ;;
                acked <- gets recvNbAcked ;;
                (if u64 (unacked - acked) >? subprotoAckThreshold then
                   writeAck unacked ;;
                   modify (fun c => with_recvNbAcked (recvNbUnacked c) c)
                 else ret tt) ;;
                returnErr (match r2 with Err e => Some e | _ => None end)) c2
               = (r, c')).
  { destruct Hcases as [-> | [e ->]]; exact H. }
  clear H. unfold bind at 1 2, gets in H'.
  destruct (u64 (recvNbUnacked c2 - recvNbAcked c2) >? subprotoAckThreshold).
  - unfold bind at 1 2, writeAck, conn_Write, modify in H'.
    destruct (writesLeft (conn c2)) as [|m].
    + injection H' as <- <-. split; reflexivity.
    + destruct Hcases as [-> | [e ->]]; injection H' as <- <-;
        split; reflexivity.
  - unfold bind, ret in H'.
    destruct Hcases as [-> | [e ->]]; injection H' as <- <-;
      split; reflexivity.
Qed.

End Dispatch.

Section ReaderSteps.

(** One frame of the reader loop: it returns, with or without error;
    without error the transport has less left to deliver;
    [recvNbUnacked] stays or grows by a declared length modulo 2^64;
    [recvNbAcked] stays or catches up with [recvNbUnacked]. *)
Lemma readFrame_inv (c c' : Conn) (r : outcome unit) :
  readFrame c = (r, c') ->
  match r with
  | Ok _ => (unreadSize (conn c') < unreadSize (conn c))%nat
  | Err _ => True
  | _ => False
  end /\
  (recvNbUnacked c' = recvNbUnacked c \/
   exists L, 0 <= L <= subprotoMaxFrameSize /\
             recvNbUnacked c' = u64 (recvNbUnacked c + L)) /\
  (recvNbAcked c' = recvNbAcked c \/ recvNbAcked c' = recvNbUnacked c').
Proof.
  intros H.
  destruct (conn_ReadArray 2 c) as [r1 c1] eqn:E1.
  pose proof (conn_ReadArray_inv _ _ _ _ E1) as (Hro1 & _ & Hr1).
  destruct (readsOnly_fields _ _ Hro1) as (Hcn1 & Hcnt1 & _).
  apply counters_eq in Hcnt1. destruct Hcnt1 as (Hra1 & Hru1 & _).
  destruct r1 as [bytes| e | | msg |]; try contradiction.
  2:{ rewrite (readFrame_no_tag _ _ _ E1) in H. injection H as <- <-.
      split; [exact I | split; left; assumption]. }
  destruct Hr1 as [_ Hlt1]. specialize (Hlt1 ltac:(lia)).
  rewrite (readFrame_tag _ _ _ E1) in H.
  destruct (Uint16 bytes =? subprotoTagSuccess).
  { apply readSuccessFrame_inv in H. destruct H as (c0 & sid & Hro0 & Hr).
    destruct (readsOnly_fields _ _ Hro0) as (_ & Hcnt0 & _).
    apply counters_eq in Hcnt0. destruct Hcnt0 as (Hra0 & Hru0 & _).
    destruct r as [[]| e | | msg |]; try contradiction.
    - destruct Hr as [-> Hlt0]. cbn.
      split; [lia | split; left; congruence].
    - subst c'. cbn. split; [exact I | split; left; congruence]. }
  destruct (connected c1); cbn [negb] in H.
  2:{ injection H as <- <-. split; [exact I | split; left; assumption]. }
  destruct (Uint16 bytes =? subprotoTagAck).
  { apply readAckFrame_inv in H.
    destruct r as [[]| e | | msg |]; try contradiction.
    - destruct H as (c0 & count & _ & Hro0 & Hlt0 & ->).
      destruct (readsOnly_fields _ _ Hro0) as (_ & Hcnt0 & _).
      apply counters_eq in Hcnt0. destruct Hcnt0 as (Hra0 & Hru0 & _).
      cbn. split; [lia | split; left; congruence].
    - subst c'. split; [exact I | split; left; assumption]. }
  destruct (Uint16 bytes =? subprotoTagData).
  2:{ injection H as <- <-. split; [exact Hlt1 | split; left; assumption]. }
  apply handleDataFrame_inv in H.
  destruct H as (c2 & r2 & E2 & _ & Hack).
  apply readDataFrame_inv in E2.
  assert (Hdata :
    recvNbAcked c2 = recvNbAcked c /\
    (recvNbUnacked c2 = recvNbUnacked c \/
     exists L, 0 <= L <= subprotoMaxFrameSize /\
               recvNbUnacked c2 = u64 (recvNbUnacked c + L)) /\
    match r2 with
    | Ok _ => (unreadSize (conn c2) < unreadSize (conn c))%nat
    | Err _ => True
    | _ => False
    end).
  { destruct r2 as [[]| e | | msg |]; try contradiction.
    - destruct E2 as (c0 & L & w & Hro0 & Hlt0 & HL & _ & _ & ->).
      destruct (readsOnly_fields _ _ Hro0) as (_ & Hcnt0 & _).
      apply counters_eq in Hcnt0. destruct Hcnt0 as (Hra0 & Hru0 & _).
      cbn. split; [congruence | split; [| lia]].
      right. exists L. split; [exact HL | congruence].
    - destruct (readsOnly_fields _ _ E2) as (_ & Hcnt0 & _).
      apply counters_eq in Hcnt0. destruct Hcnt0 as (Hra0 & Hru0 & _).
      split; [congruence | split; [left; congruence | exact I]]. }
  destruct Hdata as (Hra2 & Hru2 & Hsz2).
  destruct (u64 (recvNbUnacked c2 - recvNbAcked c2) >? subprotoAckThreshold).
  - destruct (writesLeft (conn c2)) as [|m].
    + destruct Hack as [-> ->].
      split; [exact I | split; [exact Hru2 | left; exact Hra2]].
    + destruct Hack as [-> ->]. cbn.
      split; [destruct r2; exact Hsz2 | split; [exact Hru2 | right; reflexivity]].
  - destruct Hack as [-> ->].
    split; [destruct r2; exact Hsz2 | split; [exact Hru2 | left; exact Hra2]].
Qed.

End ReaderSteps.

Section Fatal.

Lemma closeWriters_closes (e : error) (c : Conn) :
  pipesOpen c ->
  fst (closeWriters e c) = Ok tt /\ closedWith e (snd (closeWriters e c)).
Proof.
  intros [Hs Hr]. unfold closeWriters, bind, modify, closedWith.
  cbn. unfold Pipe_CloseWithError. rewrite Hs, Hr. cbn. repeat split.
Qed.


(** Any error of [readFrame] ends [Conn.read]: the loop closes both
    pipes with it and stops. *)
Lemma read_loop_error (fuel : nat) (c c' : Conn) (e : error) :
  readFrame c = (Err e, c') ->
  read_loop (S fuel) c = closeWriters (asCloseError e) c'.
Proof.
  intros H. cbn [read_loop]. unfold bind at 1, errorOf. rewrite H.
  reflexivity.
Qed.

Lemma read_loop_continue (fuel : nat) (c c' : Conn) :
  readFrame c = (Ok tt, c') ->
  read_loop (S fuel) c = read_loop fuel c'.
Proof.
  intros H. cbn [read_loop]. unfold bind at 1, errorOf. rewrite H.
  reflexivity.
Qed.

Lemma read_error (c c' : Conn) (e : error) :
  readFrame c = (Err e, c') ->
  read c = closeWriters (asCloseError e) c'.
Proof. intros H. unfold read. apply read_loop_error, H. Qed.



End Fatal.



(** C3.  A DATA or ACK frame that arrives before the SUCCESS frame makes
    [readFrame] fail with a [ProtocolError], and [Conn.read] closes both
    pipes with that error and stops; the message of the error is
    "expected success frame but not did receive one", which is not the
    "... did not receive one" of the specification. *)
Theorem data_before_success (c c1 : Conn) (tag : list byte) :
  conn_ReadArray 2 c = (Ok tag, c1) ->
  Uint16 tag = subprotoTagData \/ Uint16 tag = subprotoTagAck ->
  connected c = false ->
  pipesOpen c ->
  readFrame c =
    (Err (ProtocolError "expected success frame but not did receive one"), c1) /\
  fst (read c) = Ok tt /\
  closedWith (ProtocolError "expected success frame but not did receive one")
             (snd (read c)) /\
  ProtocolError "expected success frame but not did receive one"
    <> ProtocolError "expected success frame but did not receive one".
Proof.
  intros Htag Hkind Hconn Hopen.
  pose proof (conn_ReadArray_inv _ _ _ _ Htag) as (Hro1 & _ & _).
  destruct (readsOnly_fields _ _ Hro1) as (Hcn1 & _ & _ & _ & _ & Hwe & Hsp & _).
  assert (Hrf : readFrame c = (Err expectedSuccess, c1)).
  { rewrite (readFrame_tag _ _ _ Htag), Hcn1, Hconn.
    destruct Hkind as [-> | ->]; reflexivity. }
  split; [exact Hrf |].
  rewrite (read_error _ _ _ Hrf).
  assert (Hopen1 : pipesOpen c1).
  { destruct Hopen as [Hs Hr]. split; congruence. }
  destruct (closeWriters_closes expectedSuccess c1 Hopen1) as [Hok Hcl].
  split; [exact Hok |]. split; [exact Hcl |]. discriminate.
Qed.

Lemma data_before_success_witness :
  connected (opening [[x00; x04; x00; x00; x00; x01; x61]]) = false /\
  readFrame (opening [[x00; x04; x00; x00; x00; x01; x61]]) =
    (Err (ProtocolError "expected success frame but not did receive one"),
     opening [[x00; x00; x00; x01; x61]]) /\
  closedWith (ProtocolError "expected success frame but not did receive one")
             (snd (read (opening [[x00; x04; x00; x00; x00; x01; x61]]))).
Proof.
  pose proof (data_before_success
                (opening [[x00; x04; x00; x00; x00; x01; x61]]) _ _
                eq_refl (or_introl eq_refl) eq_refl (conj eq_refl eq_refl))
    as (Hrf & _ & Hcl & _).
  split; [reflexivity |]. split; [exact Hrf | exact Hcl].
Defined.

(** C5.  A SUCCESS frame, or a DATA frame on a connected tunnel with no
    acknowledgement overdue, whose declared length exceeds 16384 makes
    its decoder, and with it [readFrame], fail with
    [ProtocolError "len exceeds subprotocol max data frame size"], and
    [Conn.read] closes both pipes with that error and stops. *)
Theorem oversize_rejected (c c1 c2 : Conn) (tag bytes : list byte) :
  conn_ReadArray 2 c = (Ok tag, c1) ->
  conn_ReadArray 4 c1 = (Ok bytes, c2) ->
  Uint32 bytes > 16384 ->
  Uint16 tag = subprotoTagSuccess \/
  (Uint16 tag = subprotoTagData /\ connected c = true /\
   u64 (recvNbUnacked c - recvNbAcked c) <= subprotoAckThreshold) ->
  pipesOpen c ->
  readSuccessFrame c1 =
    (Err (ProtocolError "len exceeds subprotocol max data frame size"), c2) /\
  readDataFrame c1 =
    (Err (ProtocolError "len exceeds subprotocol max data frame size"), c2) /\
  readFrame c =
    (Err (ProtocolError "len exceeds subprotocol max data frame size"), c2) /\
  fst (read c) = Ok tt /\
  closedWith (ProtocolError "len exceeds subprotocol max data frame size")
             (snd (read c)).
Proof.
  intros Htag Hlen Hbig Hkind Hopen.
  pose proof (conn_ReadArray_inv _ _ _ _ Htag) as (Hro1 & _ & _).
  pose proof (conn_ReadArray_inv _ _ _ _ Hlen) as (Hro2 & _ & _).
  pose proof (readsOnly_trans _ _ _ Hro1 Hro2) as Hro.
  destruct (readsOnly_fields _ _ Hro1) as (Hcn1 & _).
  destruct (readsOnly_fields _ _ Hro) as (_ & Hcnt & _ & _ & _ & Hwe & Hsp & _).
  apply counters_eq in Hcnt. destruct Hcnt as (Hra & Hru & _).
  assert (Hgt : (Uint32 bytes >? subprotoMaxFrameSize) = true).
  { unfold subprotoMaxFrameSize. lia. }
  assert (Hs : readSuccessFrame c1 = (Err lenExceeds, c2)).
  { unfold readSuccessFrame. unfold bind at 1. rewrite Hlen, Hgt. reflexivity. }
  assert (Hd : readDataFrame c1 = (Err lenExceeds, c2)).
  { unfold readDataFrame. unfold bind at 1. rewrite Hlen, Hgt. reflexivity. }
  assert (Hrf : readFrame c = (Err lenExceeds, c2)).
  { rewrite (readFrame_tag _ _ _ Htag).
    destruct Hkind as [-> | (-> & Hconn & Hdiff)]; [exact Hs |].
    rewrite Hcn1, Hconn. cbn [negb Z.eqb subprotoTagData subprotoTagSuccess
                               subprotoTagAck Pos.eqb].
    unfold handleDataFrame. unfold bind at 1, errorOf. rewrite Hd.
    unfold bind at 1 2, gets. rewrite Hru, Hra.
    destruct (u64 (recvNbUnacked c - recvNbAcked c) >? subprotoAckThreshold)
      eqn:Hdue; [lia |].
    reflexivity. }
  split; [exact Hs |]. split; [exact Hd |]. split; [exact Hrf |].
  rewrite (read_error _ _ _ Hrf).
  apply closeWriters_closes. destruct Hopen. split; congruence.
Qed.

Lemma oversize_rejected_witness :
  Uint32 [x00; x00; x40; x01] > 16384 /\
  readFrame oversizeData =
    (Err (ProtocolError "len exceeds subprotocol max data frame size"),
     established [[x61; x62]]) /\
  closedWith (ProtocolError "len exceeds subprotocol max data frame size")
             (snd (read oversizeData)).
Proof.
  assert (Hbig : Uint32 [x00; x00; x40; x01] > 16384) by (vm_compute; reflexivity).
  assert (Hdue : u64 (recvNbUnacked oversizeData - recvNbAcked oversizeData)
                 <= subprotoAckThreshold) by (vm_compute; discriminate).
  pose proof (oversize_rejected oversizeData _ _ _ _ eq_refl eq_refl Hbig
                (or_intror (conj eq_refl (conj eq_refl Hdue)))
                (conj eq_refl eq_refl))
    as (_ & _ & Hrf & _ & Hcl).
  split; [exact Hbig |]. split; [exact Hrf | exact Hcl].
Defined.

(** C6, as the code has it.  A SUCCESS frame is decoded the same way
    whether or not the tunnel is connected already: a declared length
    above 16384 is a [ProtocolError]; otherwise the session id is read
    into a fresh buffer of the declared length, stored in place of any
    earlier one, and [connected] is set. *)
Theorem success_frame_any_state (c c1 c2 : Conn) (tag bytes : list byte) :
  conn_ReadArray 2 c = (Ok tag, c1) ->
  Uint16 tag = subprotoTagSuccess ->
  conn_ReadArray 4 c1 = (Ok bytes, c2) ->
  (Uint32 bytes > 16384 ->
   readFrame c =
     (Err (ProtocolError "len exceeds subprotocol max data frame size"), c2)) /\
  (Uint32 bytes <= 16384 ->
   forall (data : list byte) (c3 : Conn),
     conn_Read (Z.to_nat (Uint32 bytes)) c2 = (Ok data, c3) ->
     readFrame c =
       (Ok tt,
        with_connected true
          (with_sessionID (filled (Z.to_nat (Uint32 bytes)) data) c3))).
Proof.
  intros Htag Hsucc Hlen.
  rewrite (readFrame_tag _ _ _ Htag), Hsucc.
  cbn [Z.eqb subprotoTagSuccess Pos.eqb].
  unfold readSuccessFrame. change subprotoMaxFrameSize with 16384.
  split.
  - intros Hbig. unfold bind at 1. rewrite Hlen.
    destruct (Uint32 bytes >? 16384) eqn:E; [reflexivity | lia].
  - intros Hsmall data c3 Hsid. unfold bind at 1. rewrite Hlen.
    destruct (Uint32 bytes >? 16384) eqn:E; [lia |].
    unfold bind at 1, modify at 1. unfold bind at 1.
    assert (Hsid' : conn_Read (Z.to_nat (Uint32 bytes))
                      (with_sessionID (make (Z.to_nat (Uint32 bytes))) c2)
                    = (Ok data, with_sessionID (make (Z.to_nat (Uint32 bytes))) c3)).
    { unfold conn_Read in *. cbn [conn with_sessionID].
      destruct (inbound (conn c2)); [discriminate |].
      injection Hsid as <- <-. reflexivity. }
    rewrite Hsid'. reflexivity.
Qed.

Lemma success_frame_any_state_witness :
  Uint32 [x00; x00; x00; x04] <= 16384 /\
  readFrame secondSuccess =
    (Ok tt, with_sessionID [x61; x62; x63; x64] (established [])).
Proof.
  assert (Hsmall : Uint32 [x00; x00; x00; x04] <= 16384)
    by (vm_compute; discriminate).
  split; [exact Hsmall |].
  exact (proj2 (success_frame_any_state secondSuccess _ _ _ _
                  eq_refl eq_refl eq_refl) Hsmall _ _ eq_refl).
Defined.

(** C6 as stated fails: a second SUCCESS frame on a connected tunnel is
    no protocol error; it is accepted and replaces the session id. *)
Lemma second_success_accepted :
  connected secondSuccess = true /\
  fst (readFrame secondSuccess) = Ok tt /\
  sessionID secondSuccess = [x77; x78] /\
  sessionID (snd (readFrame secondSuccess)) = [x61; x62; x63; x64].
Proof. repeat split. Qed.

(** C7, as the code has it.  A frame whose tag is none of SUCCESS, DATA
    and ACK is ignored once the tunnel is connected: [readFrame] returns
    no error in the state the 2-byte tag read left, so nothing after the
    tag is consumed, and the reader loop goes on to the next frame.
    Before the handshake the same frame is a [ProtocolError]. *)
Theorem unknown_tag (c c1 : Conn) (tag : list byte) :
  conn_ReadArray 2 c = (Ok tag, c1) ->
  Uint16 tag <> subprotoTagSuccess ->
  Uint16 tag <> subprotoTagData ->
  Uint16 tag <> subprotoTagAck ->
  (connected c = true ->
   readFrame c = (Ok tt, c1) /\
   forall fuel, read_loop (S fuel) c = read_loop fuel c1) /\
  (connected c = false ->
   exists msg, readFrame c = (Err (ProtocolError msg), c1)).
Proof.
  intros Htag Hs Hd Ha.
  pose proof (conn_ReadArray_inv _ _ _ _ Htag) as (Hro1 & _ & _).
  destruct (readsOnly_fields _ _ Hro1) as (Hcn1 & _).
  apply Z.eqb_neq in Hs, Hd, Ha.
  split; intros Hconn.
  - assert (Hrf : readFrame c = (Ok tt, c1)).
    { rewrite (readFrame_tag _ _ _ Htag), Hs, Hd, Ha, Hcn1, Hconn.
      reflexivity. }
    split; [exact Hrf |]. intros fuel. apply read_loop_continue, Hrf.
  - eexists. rewrite (readFrame_tag _ _ _ Htag), Hs, Hcn1, Hconn.
    reflexivity.
Qed.

Lemma unknown_tag_witness :
  connected (established [[x00; x09; x61]]) = true /\
  Uint16 [x00; x09] <> subprotoTagSuccess /\
  Uint16 [x00; x09] <> subprotoTagData /\
  Uint16 [x00; x09] <> subprotoTagAck /\
  readFrame (established [[x00; x09; x61]]) = (Ok tt, established [[x61]]).
Proof.
  assert (Hs : Uint16 [x00; x09] <> subprotoTagSuccess) by discriminate.
  assert (Hd : Uint16 [x00; x09] <> subprotoTagData) by discriminate.
  assert (Ha : Uint16 [x00; x09] <> subprotoTagAck) by discriminate.
  repeat (split; [first [reflexivity | assumption] |]).
  exact (proj1 (proj1 (unknown_tag (established [[x00; x09; x61]]) _ _
                         eq_refl Hs Hd Ha) eq_refl)).
Defined.

(** C7 as stated fails: before the handshake a frame with an unknown tag
    is not ignored, [readFrame] returns an error for it. *)
Lemma unknown_tag_before_handshake :
  connected (opening [[x00; x09; x61]]) = false /\
  Uint16 [x00; x09] = 9 /\
  readFrame (opening [[x00; x09; x61]]) =
    (Err (ProtocolError "expected success frame but not did receive one"),
     opening [[x61]]).
Proof. repeat split. Qed.

(** C8 at its failing input: a connected tunnel receives the header of a
    DATA frame declaring 5 bytes, then 2 bytes, then the transport ends
    with [EOF].  The decoder reports no error, 2 bytes have gone into
    the receive pipe, and [recvNbUnacked] has grown by 5. *)
Theorem truncated_data_accepted :
  fst (readFrame truncatedData) = Ok tt /\
  passed (recvPipe (snd (readFrame truncatedData))) = [x61; x62] /\
  recvNbUnacked truncatedData = 0 /\
  recvNbUnacked (snd (readFrame truncatedData)) = 5 /\
  inbound (conn (snd (readFrame truncatedData))) = [] /\
  inboundErr (conn truncatedData) = EOF.
Proof. repeat split. Qed.

Section Counters.




End Counters.




(* ===================================================================== *)
(** ** The scenarios of the specification, run *)
(* ===================================================================== *)

(** Handshake: the server sends [0001 00000004 "abcd"]. *)
Example handshake_abcd :
  readFrame (opening [[x00; x01; x00; x00; x00; x04; x61; x62; x63; x64]]) =
  (Ok tt, with_sessionID [x61; x62; x63; x64] (established [])).
Proof. reflexivity. Qed.

(** Single-chunk data: after the handshake the server sends
    [0004 00000005 "hello"]; the bytes reach the receive pipe and nothing
    is acknowledged yet. *)
Example single_chunk_hello :
  let c' := snd (readFrame (established
              [[x00; x04; x00; x00; x00; x05; x68; x65; x6c; x6c; x6f]])) in
  passed (recvPipe c') = [x68; x65; x6c; x6c; x6f] /\
  recvNbUnacked c' = 5 /\ recvNbAcked c' = 0 /\ outbound (conn c') = [].
Proof. repeat split. Qed.

(** Ack triggered: after two full DATA frames nothing is acknowledged;
    after the third, one ACK frame carrying 32769 = 0x8001 has gone out
    and [recvNbAcked] is 32769. *)
Example ack_after_32769 :
  recvNbAcked (snd ((readFrame ;; readFrame ;; readFrame) threeDataFrames)) = 0 /\
  outbound (conn (snd ((readFrame ;; readFrame ;; readFrame) threeDataFrames))) = [] /\
  fst (read threeDataFrames) = Ok tt /\
  outbound (conn (snd (read threeDataFrames))) = [makeAckFrame 32769] /\
  Uint64 (skipn 2 (makeAckFrame 32769)) = 0x8001 /\
  recvNbAcked (snd (read threeDataFrames)) = 32769 /\
  len (passed (recvPipe (snd (read threeDataFrames)))) = 32769.
Proof. vm_compute. repeat split. Qed.

(* ===================================================================== *)
(** ** Frames that arrive as one transport message each *)
(* ===================================================================== *)

Section WholeMessages.

Lemma Uint64_arith (b0 b1 b2 b3 b4 b5 b6 b7 : byte) :
  Uint64 [b0; b1; b2; b3; b4; b5; b6; b7] =
  ((((((Z_of_byte b0 * 256 + Z_of_byte b1) * 256 + Z_of_byte b2) * 256
      + Z_of_byte b3) * 256 + Z_of_byte b4) * 256 + Z_of_byte b5) * 256
   + Z_of_byte b6) * 256 + Z_of_byte b7.
Proof.
  unfold Uint64, at_. cbn [nth].
  pose proof (Z_of_byte_range b0). pose proof (Z_of_byte_range b1).
  pose proof (Z_of_byte_range b2). pose proof (Z_of_byte_range b3).
  pose proof (Z_of_byte_range b4). pose proof (Z_of_byte_range b5).
  pose proof (Z_of_byte_range b6). pose proof (Z_of_byte_range b7).
  rewrite (lor_shiftl_add _ _ 8) by lia.
  rewrite (lor_shiftl_add _ _ 16) by lia.
  rewrite (lor_shiftl_add _ _ 24) by lia.
  rewrite (lor_shiftl_add _ _ 32) by lia.
  rewrite (lor_shiftl_add _ _ 40) by lia.
  rewrite (lor_shiftl_add _ _ 48) by lia.
  rewrite (lor_shiftl_add _ _ 56) by lia.
  lia.
Qed.

(** Decoding what [PutUint64] wrote gives the value back. *)
Lemma Uint64_PutUint64 (v : Z) : 0 <= v < 2 ^ 64 -> Uint64 (PutUint64 v) = v.
Proof.
  intros Hv. unfold PutUint64. rewrite Uint64_arith.
  rewrite !Z_of_byte_of_Z, !Z.shiftr_div_pow2 by lia.
  change (2 ^ 8) with 256. change (2 ^ 16) with (256 * 256).
  change (2 ^ 24) with (256 * (256 * 256)).
  change (2 ^ 32) with (256 * (256 * (256 * 256))).
  change (2 ^ 40) with (256 * (256 * (256 * (256 * 256)))).
  change (2 ^ 48) with (256 * (256 * (256 * (256 * (256 * 256))))).
  change (2 ^ 56) with (256 * (256 * (256 * (256 * (256 * (256 * 256)))))).
  rewrite <- !Z.div_div by lia.
  set (q1 := v / 256). set (q2 := q1 / 256). set (q3 := q2 / 256).
  set (q4 := q3 / 256). set (q5 := q4 / 256). set (q6 := q5 / 256).
  set (q7 := q6 / 256).
  pose proof (Z.div_mod v 256 ltac:(lia)) as E1. fold q1 in E1.
  pose proof (Z.div_mod q1 256 ltac:(lia)) as E2. fold q2 in E2.
  pose proof (Z.div_mod q2 256 ltac:(lia)) as E3. fold q3 in E3.
  pose proof (Z.div_mod q3 256 ltac:(lia)) as E4. fold q4 in E4.
  pose proof (Z.div_mod q4 256 ltac:(lia)) as E5. fold q5 in E5.
  pose proof (Z.div_mod q5 256 ltac:(lia)) as E6. fold q6 in E6.
  pose proof (Z.div_mod q6 256 ltac:(lia)) as E7. fold q7 in E7.
  pose proof (Z.mod_pos_bound v 256 ltac:(lia)).
  pose proof (Z.mod_pos_bound q1 256 ltac:(lia)).
  pose proof (Z.mod_pos_bound q2 256 ltac:(lia)).
  pose proof (Z.mod_pos_bound q3 256 ltac:(lia)).
  pose proof (Z.mod_pos_bound q4 256 ltac:(lia)).
  pose proof (Z.mod_pos_bound q5 256 ltac:(lia)).
  pose proof (Z.mod_pos_bound q6 256 ltac:(lia)).
  assert (0 <= q7 < 256) by lia.
  rewrite (Z.mod_small q7) by assumption. lia.
Qed.

Lemma with_passed_nil (c : Conn) : with_passed [] c = c.
Proof.
  destruct c as [t cn sid ra ru [rw rwr rp] sa ch sp].
  unfold with_passed. cbn. rewrite app_nil_r. reflexivity.
Qed.

Lemma with_inbound_same (c : Conn) : with_inbound (inbound (conn c)) c = c.
Proof. destruct c as [[] ? ? ? ? ? ? ? ?]. reflexivity. Qed.

(** A read of [k] bytes when the first unread message starts with the [k]
    bytes [pre]: the array holds [pre], and the rest of the message stays
    at the head of the transport unless nothing is left of it. *)
Lemma conn_ReadArray_prefix (k : nat) (pre post : list byte)
      (ms : list (list byte)) (c : Conn) :
  inbound (conn c) = (pre ++ post) :: ms ->
  length pre = k ->
  conn_ReadArray k c =
  (Ok pre, with_inbound (match post with [] => ms | _ => post :: ms end) c).
Proof.
  intros Hin Hk. unfold conn_ReadArray, bind, conn_Read. rewrite Hin.
  assert (Hf : firstn k (pre ++ post) = pre).
  { rewrite <- Hk, firstn_app, Nat.sub_diag, firstn_all. cbn.
    apply app_nil_r. }
  assert (Hs : skipn k (pre ++ post) = post).
  { rewrite <- Hk, skipn_app, Nat.sub_diag, skipn_all. reflexivity. }
  rewrite Hf, Hs. unfold ret. rewrite (filled_exact k pre Hk).
  destruct post; reflexivity.
Qed.

(** The copy loop on a limit of 0: nothing is read. *)
Lemma copyBuffer_nothing (fuel k : nat) (written : Z) (c : Conn) :
  copyBuffer (S fuel) 0 k written c = (Ok written, c).
Proof. reflexivity. Qed.

(** The copy loop when the first unread message is exactly the [n] bytes
    wanted and fits the staging buffer: one read, one pipe write. *)
Lemma copyBuffer_message (fuel k : nat) (written : Z) (p : list byte)
      (ms : list (list byte)) (c : Conn) :
  inbound (conn c) = p :: ms ->
  p <> [] ->
  (length p <= k)%nat ->
  werr (recvPipe c) = None ->
  copyBuffer (S (S fuel)) (len p) k written c =
  (Ok (written + len p), with_passed p (with_inbound ms c)).
Proof.
  intros Hin Hne Hk Hopen.
  assert (Hpos : 0 < len p).
  { destruct p; [congruence | unfold len; cbn; lia]. }
  cbn [copyBuffer]. unfold bind at 1, attempt, LimitedReader_Read.
  destruct (len p <=? 0) eqn:E0; [lia |].
  set (k0 := if Z.of_nat k >? len p then Z.to_nat (len p) else k).
  assert (Hk0 : (length p <= k0)%nat).
  { unfold k0, len. destruct (Z.of_nat k >? Z.of_nat (length p)); lia. }
  unfold bind at 1, conn_Read. rewrite Hin.
  rewrite (firstn_all2 p Hk0), (skipn_all2 p Hk0). cbn [ret].
  destruct (0 <? len p) eqn:E1; [| lia].
  unfold bind at 1.
  rewrite recvWriter_Write_open by (cbn; exact Hopen).
  replace (len p - len p) with 0 by lia.
  unfold bind at 1, attempt, LimitedReader_Read. cbn [Z.leb Z.compare fail is_EOF ret].
  unfold with_passed, with_inbound. cbn. rewrite Hopen.
  destruct c as [[] ? ? ? ? [] ? ? ?]. reflexivity.
Qed.

(** [readDataFrame] on a message that is the length and the payload of
    one DATA frame. *)
Lemma readDataFrame_message (p : list byte) (ms : list (list byte)) (c : Conn) :
  inbound (conn c) = (PutUint32 (len p) ++ p) :: ms ->
  len p <= subprotoMaxFrameSize ->
  werr (recvPipe c) = None ->
  readDataFrame c =
  (Ok tt,
   with_recvNbUnacked (u64 (recvNbUnacked c + len p))
     (with_passed p (with_inbound ms c))).
Proof.
  intros Hin Hsmall Hopen.
  pose proof (len_nonneg p) as Hnn. unfold subprotoMaxFrameSize in Hsmall.
  unfold readDataFrame. unfold bind at 1.
  rewrite (conn_ReadArray_prefix 4 _ _ _ _ Hin eq_refl).
  rewrite (Uint32_PutUint32 (len p)) by lia.
  destruct (len p >? subprotoMaxFrameSize) eqn:E;
    [unfold subprotoMaxFrameSize in E; lia |].
  unfold bind at 1, copyNBuffer.
  destruct p as [|x p'].
  - cbn [with_inbound]. rewrite copyBuffer_nothing. unfold modify.
    rewrite with_passed_nil. destruct c as [[] ? ? ? ? ? ? ? ?]. reflexivity.
  - match goal with |- context [copyBuffer (S ?f) _ _ _ ?c1] =>
      assert (Hf : exists f', f = S f') end.
    { unfold with_inbound. cbn [conn with_conn]. rewrite unreadSize_cons.
      cbn [length]. eexists. reflexivity. }
    destruct Hf as [f' ->].
    rewrite (copyBuffer_message f' _ 0 (x :: p') ms); try reflexivity;
      try discriminate; try (cbn; exact Hopen).
    unfold len, subprotoMaxFrameSize in *. lia.
Qed.

(** The state in which a DATA frame with payload [p] is decoded and
    counted, before any acknowledgement. *)
Lemma readFrame_data_message (p : list byte) (ms : list (list byte)) (c : Conn) :
  connected c = true ->
  inbound (conn c) = dataFrame p :: ms ->
  len p <= subprotoMaxFrameSize ->
  werr (recvPipe c) = None ->
  readFrame c =
  handleDataFrame (with_inbound ((PutUint32 (len p) ++ p) :: ms) c) /\
  handleDataFrame (with_inbound ((PutUint32 (len p) ++ p) :: ms) c) =
  (let c2 := with_recvNbUnacked (u64 (recvNbUnacked c + len p))
               (with_passed p (with_inbound ms c)) in
   if u64 (recvNbUnacked c2 - recvNbAcked c2) >? subprotoAckThreshold then
     match writesLeft (conn c2) with
     | S m => (Ok tt, acknowledged m c2)
     | O => (Err (outboundErr (conn c2)), c2)
     end
   else (Ok tt, c2)).
Proof.
  intros Hconn Hin Hsmall Hopen.
  assert (Htag : conn_ReadArray 2 c =
                 (Ok (PutUint16 subprotoTagData),
                  with_inbound ((PutUint32 (len p) ++ p) :: ms) c)).
  { unfold dataFrame in Hin.
    rewrite (conn_ReadArray_prefix 2 _ _ _ _ Hin eq_refl). reflexivity. }
  split.
  - rewrite (readFrame_tag _ _ _ Htag). cbn [with_inbound with_conn connected].
    rewrite Hconn. reflexivity.
  - unfold handleDataFrame. unfold bind at 1, errorOf.
    rewrite (readDataFrame_message p ms) by (try reflexivity; assumption).
    unfold bind at 1 2, gets. cbn zeta.
    match goal with |- context [u64 ?d >? subprotoAckThreshold] =>
      destruct (u64 d >? subprotoAckThreshold) eqn:Hdue end.
    + match goal with |- context [if ?b then _ else _] =>
        replace b with true end.
      unfold bind at 1 2, writeAck, conn_Write, modify.
      destruct c as [[inb ie ob wl oe] cn sid ra ru [rw rwr rp] sa ch sp].
      cbn. destruct wl; reflexivity.
    + match goal with |- context [if ?b then _ else _] =>
        replace b with false end.
      destruct c as [[inb ie ob wl oe] cn sid ra ru [rw rwr rp] sa ch sp].
      reflexivity.
Qed.

Lemma u64_range (z : Z) : 0 <= u64 z < 2 ^ 64.
Proof. unfold u64. apply Z.mod_pos_bound. lia. Qed.

Lemma u64_add_l (a b : Z) : u64 (u64 a + b) = u64 (a + b).
Proof. unfold u64. apply Zplus_mod_idemp_l. Qed.

Lemma unreadSize_length (t : NetConn) :
  (length (inbound t) <= unreadSize t)%nat.
Proof. unfold unreadSize. lia. Qed.

(** The reader loop on a connected tunnel whose peer sends DATA frames,
    one message each, and then stops: every payload reaches the receive
    pipe, in order, every byte is counted, and the loop ends by closing
    the pipe with the transport's last error. *)
Lemma read_loop_data_frames (payloads : list (list byte)) :
  forall (fuel : nat) (c : Conn),
    connected c = true ->
    werr (recvPipe c) = None ->
    0 <= recvNbUnacked c < 2 ^ 64 ->
    inbound (conn c) = map dataFrame payloads ->
    Forall (fun p => len p <= subprotoMaxFrameSize) payloads ->
    (length payloads <= writesLeft (conn c))%nat ->
    (length payloads < fuel)%nat ->
    fst (read_loop fuel c) = Ok tt /\
    passed (recvPipe (snd (read_loop fuel c))) =
      passed (recvPipe c) ++ concat payloads /\
    recvNbUnacked (snd (read_loop fuel c)) =
      u64 (recvNbUnacked c + len (concat payloads)) /\
    werr (recvPipe (snd (read_loop fuel c))) =
      Some (asCloseError (inboundErr (conn c))).
Proof.
  induction payloads as [|p ps IH];
    intros fuel c Hconn Hopen Hrange Hin Hsz Hleft Hfuel;
    (destruct fuel as [|fuel]; [lia |]).
  - assert (Hrf : readFrame c = (Err (inboundErr (conn c)), c)).
    { apply readFrame_no_tag. unfold conn_ReadArray, bind, conn_Read.
      rewrite Hin. reflexivity. }
    rewrite (read_loop_error _ _ _ _ Hrf).
    unfold closeWriters, bind, modify. cbn.
    unfold Pipe_CloseWithError. rewrite Hopen. cbn.
    rewrite app_nil_r, Z.add_0_r. unfold u64.
    rewrite Z.mod_small by lia. repeat split.
  - inversion Hsz as [|? ? Hp Hps]; subst.
    cbn [map] in Hin. cbn [length] in Hleft, Hfuel.
    destruct (readFrame_data_message p _ c Hconn Hin Hp Hopen) as [Hrf Hhd].
    rewrite Hhd in Hrf. clear Hhd. cbn zeta in Hrf.
    set (c2 := with_recvNbUnacked (u64 (recvNbUnacked c + len p))
                 (with_passed p (with_inbound (map dataFrame ps) c))) in *.
    assert (Hnext : exists c',
      readFrame c = (Ok tt, c') /\
      connected c' = true /\ werr (recvPipe c') = None /\
      recvNbUnacked c' = u64 (recvNbUnacked c + len p) /\
      inbound (conn c') = map dataFrame ps /\
      passed (recvPipe c') = passed (recvPipe c) ++ p /\
      inboundErr (conn c') = inboundErr (conn c) /\
      (length ps <= writesLeft (conn c'))%nat).
    { destruct (u64 (recvNbUnacked c2 - recvNbAcked c2) >? subprotoAckThreshold).
      - destruct (writesLeft (conn c2)) as [|m] eqn:Hm.
        + unfold c2 in Hm. cbn in Hm. lia.
        + exists (acknowledged m c2). split; [exact Hrf |].
          unfold c2 in *. cbn in *.
          repeat split; try assumption; lia.
      - exists c2. split; [exact Hrf |].
        unfold c2. cbn. repeat split; try assumption; lia. }
    destruct Hnext as (c' & Hrf' & Hc' & Ho' & Hu' & Hi' & Hp' & He' & Hl').
    rewrite (read_loop_continue _ _ _ Hrf').
    destruct (IH fuel c' Hc' Ho' ltac:(rewrite Hu'; apply u64_range)
                 Hi' Hps Hl' ltac:(lia))
      as (Hok & Hpass & Hcount & Hclosed).
    split; [exact Hok |].
    split; [rewrite Hpass, Hp'; cbn [concat]; rewrite app_assoc; reflexivity |].
    split; [| rewrite Hclosed, He'; reflexivity].
    rewrite Hcount, Hu', u64_add_l. cbn [concat].
    rewrite len_app. f_equal. lia.
Qed.

End WholeMessages.

(** X1.  Receive faithfulness.  On a connected tunnel with the receive
    pipe open whose peer sends DATA frames (payloads of at most 16384
    bytes each, one transport message per frame) and then stops, with a
    transport that takes one write per frame for the acknowledgements,
    [Conn.read] hands the payloads to the receive pipe in order and
    entire, counts every byte in [recvNbUnacked], and on the transport's
    final error closes the pipe with that error, a structured close
    converted to the package's [CloseError]. *)
Theorem receive_faithful (payloads : list (list byte)) (c : Conn) :
  connected c = true ->
  werr (recvPipe c) = None ->
  0 <= recvNbUnacked c < 2 ^ 64 ->
  inbound (conn c) = map dataFrame payloads ->
  Forall (fun p => len p <= 16384) payloads ->
  (length payloads <= writesLeft (conn c))%nat ->
  fst (read c) = Ok tt /\
  received (snd (read c)) = received c ++ concat payloads /\
  recvNbUnacked (snd (read c)) = u64 (recvNbUnacked c + len (concat payloads)) /\
  werr (recvPipe (snd (read c))) = Some (asCloseError (inboundErr (conn c))).
Proof.
  intros Hconn Hopen Hrange Hin Hsz Hleft. unfold read, received.
  apply read_loop_data_frames; try assumption.
  pose proof (unreadSize_length (conn c)) as H.
  rewrite Hin, length_map in H. lia.
Qed.

Lemma receive_faithful_witness :
  received (snd (read (established
    [dataFrame [x68; x65]; dataFrame []; dataFrame [x6c; x6c; x6f]]))) =
  [x68; x65; x6c; x6c; x6f] /\
  recvNbUnacked (snd (read (established
    [dataFrame [x68; x65]; dataFrame []; dataFrame [x6c; x6c; x6f]]))) = 5.
Proof.
  assert (Hsz : Forall (fun p => len p <= 16384)
                       [[x68; x65]; []; [x6c; x6c; x6f]]).
  { repeat constructor; cbn; lia. }
  assert (Hleft : (length [[x68; x65]; []; [x6c; x6c; x6f]]
                   <= writesLeft (conn (established
                        (map dataFrame [[x68; x65]; []; [x6c; x6c; x6f]]))))%nat)
    by (cbn; lia).
  assert (Hrange : 0 <= recvNbUnacked (established
                     (map dataFrame [[x68; x65]; []; [x6c; x6c; x6f]])) < 2 ^ 64)
    by (cbn; lia).
  pose proof (receive_faithful [[x68; x65]; []; [x6c; x6c; x6f]]
                (established (map dataFrame [[x68; x65]; []; [x6c; x6c; x6f]]))
                eq_refl eq_refl Hrange eq_refl Hsz Hleft)
    as (_ & Hrecv & Hcount & _).
  split; [exact Hrecv | exact Hcount].
Defined.



Section RoundTrips.

(** [readFrame] on a message that is one ACK frame. *)
Lemma readFrame_ack_message (nb : Z) (ms : list (list byte)) (c : Conn) :
  connected c = true ->
  inbound (conn c) = makeAckFrame nb :: ms ->
  readFrame c =
  (Ok tt, with_sendNbAcked (Uint64 (PutUint64 nb)) (with_inbound ms c)).
Proof.
  intros Hconn Hin.
  assert (Htag : conn_ReadArray 2 c =
                 (Ok (PutUint16 subprotoTagAck),
                  with_inbound (PutUint64 nb :: ms) c)).
  { unfold makeAckFrame in Hin.
    rewrite (conn_ReadArray_prefix 2 _ _ _ _ Hin eq_refl). reflexivity. }
  rewrite (readFrame_tag _ _ _ Htag). cbn [with_inbound with_conn connected].
  rewrite Hconn.
  change (Uint16 (PutUint16 subprotoTagAck)) with subprotoTagAck.
  cbn [negb Z.eqb subprotoTagSuccess subprotoTagAck Pos.eqb].
  unfold readAckFrame, bind.
  rewrite (conn_ReadArray_prefix 8 (PutUint64 nb) [] ms);
    [| reflexivity | reflexivity].
  unfold modify. destruct c as [[] ? ? ? ? ? ? ? ?]. reflexivity.
Qed.

End RoundTrips.

(** X3.  ACK round trip.  An ACK frame built by [makeAckFrame] for a count
    that fits 64 bits, arriving as one message on a connected tunnel, is
    consumed entire and makes [Sent()] that count; nothing else changes. *)
Theorem ack_round_trip (nb : Z) (ms : list (list byte)) (c : Conn) :
  0 <= nb < 2 ^ 64 ->
  connected c = true ->
  inbound (conn c) = makeAckFrame nb :: ms ->
  readFrame c = (Ok tt, with_sendNbAcked nb (with_inbound ms c)) /\
  Sent (snd (readFrame c)) = nb.
Proof.
  intros Hnb Hconn Hin.
  rewrite (readFrame_ack_message nb ms c Hconn Hin).
  rewrite (Uint64_PutUint64 nb Hnb). split; reflexivity.
Qed.

Lemma ack_round_trip_witness :
  readFrame (established [makeAckFrame 123456789012; [x00]]) =
  (Ok tt, with_sendNbAcked 123456789012 (established [[x00]])) /\
  Sent (snd (readFrame (established [makeAckFrame 123456789012; [x00]])))
  = 123456789012.
Proof.
  apply (ack_round_trip 123456789012 [[x00]]
           (established [makeAckFrame 123456789012; [x00]])).
  - lia.
  - reflexivity.
  - reflexivity.
Defined.

Section SuccessFrames.

(** [readFrame] on a message that is one SUCCESS frame with a non-empty
    session id, whatever the declared length turns out to be. *)
Lemma readFrame_success_message (sid : list byte) (ms : list (list byte))
      (c : Conn) :
  sid <> [] ->
  len sid + 6 <= MaxUint32 ->
  inbound (conn c) =
    (PutUint16 subprotoTagSuccess ++ PutUint32 (u32 (len sid)) ++ sid) :: ms ->
  readFrame c =
  if len sid >? subprotoMaxFrameSize
  then (Err lenExceeds, with_inbound (sid :: ms) c)
  else (Ok tt, with_connected true (with_sessionID sid (with_inbound ms c))).
Proof.
  intros Hne Hfit Hin.
  pose proof (len_nonneg sid) as Hnn. unfold MaxUint32 in Hfit.
  assert (Hu : u32 (len sid) = len sid).
  { unfold u32. apply Z.mod_small. lia. }
  rewrite Hu in Hin.
  assert (Htag : conn_ReadArray 2 c =
                 (Ok (PutUint16 subprotoTagSuccess),
                  with_inbound ((PutUint32 (len sid) ++ sid) :: ms) c)).
  { rewrite (conn_ReadArray_prefix 2 _ _ _ _ Hin eq_refl). reflexivity. }
  rewrite (readFrame_tag _ _ _ Htag).
  change (Uint16 (PutUint16 subprotoTagSuccess)) with subprotoTagSuccess.
  cbn [Z.eqb subprotoTagSuccess Pos.eqb].
  unfold readSuccessFrame. unfold bind at 1.
  rewrite (conn_ReadArray_prefix 4 (PutUint32 (len sid)) sid ms);
    [| reflexivity | reflexivity].
  rewrite (Uint32_PutUint32 (len sid)) by lia.
  destruct sid as [|x sid']; [congruence |].
  destruct (len (x :: sid') >? subprotoMaxFrameSize).
  - destruct c as [[] ? ? ? ? ? ? ? ?]. reflexivity.
  - unfold bind at 1, modify at 1. unfold bind at 1, conn_Read.
    cbn [conn with_inbound with_conn with_sessionID inbound].
    unfold len. rewrite Nat2Z.id.
    rewrite firstn_all, skipn_all.
    rewrite filled_exact by reflexivity.
    destruct c as [[] ? ? ? ? ? ? ? ?]. reflexivity.
Qed.

End SuccessFrames.

(** X4.  SUCCESS round trip.  The frame [makeSuccessFrame] builds for a
    non-empty session id of at most 16384 bytes, arriving as one message,
    is consumed entire by [readFrame], after which [SessionID()] is that
    session id and [Connected()] is true, whether or not the tunnel was
    connected before. *)
Theorem success_round_trip (sid f : list byte) (ms : list (list byte))
        (c : Conn) :
  sid <> [] ->
  len sid <= 16384 ->
  makeSuccessFrame sid = Returns f ->
  inbound (conn c) = f :: ms ->
  readFrame c =
    (Ok tt, with_connected true (with_sessionID sid (with_inbound ms c))) /\
  SessionID (snd (readFrame c)) = sid /\
  Connected (snd (readFrame c)) = true.
Proof.
  intros Hne Hsmall Hmk Hin. unfold makeSuccessFrame in Hmk.
  destruct (len sid + 6 >? MaxUint32) eqn:Hfit; [discriminate |].
  injection Hmk as <-.
  rewrite (readFrame_success_message sid ms c Hne ltac:(lia) Hin).
  destruct (len sid >? subprotoMaxFrameSize) eqn:E;
    [unfold subprotoMaxFrameSize in E; lia |].
  repeat split.
Qed.

Lemma success_round_trip_witness :
  makeSuccessFrame [x61; x62; x63; x64] =
    Returns [x00; x01; x00; x00; x00; x04; x61; x62; x63; x64] /\
  SessionID (snd (readFrame (opening
    [[x00; x01; x00; x00; x00; x04; x61; x62; x63; x64]]))) =
  [x61; x62; x63; x64] /\
  Connected (snd (readFrame (opening
    [[x00; x01; x00; x00; x00; x04; x61; x62; x63; x64]]))) = true.
Proof.
  split; [reflexivity |].
  assert (Hne : [x61; x62; x63; x64] <> []) by discriminate.
  assert (Hsmall : len [x61; x62; x63; x64] <= 16384) by (cbn; lia).
  exact (proj2 (success_round_trip [x61; x62; x63; x64] _ []
                  (opening [[x00; x01; x00; x00; x00; x04; x61; x62; x63; x64]])
                  Hne Hsmall eq_refl eq_refl)).
Defined.

(** X5.  The encoders accept what the decoders refuse.  For a body of
    more than 16384 bytes (and up to [math.MaxUint32 - 6])
    [makeSuccessFrame] and [makeDataFrame] return a frame without
    panicking, and [readFrame] rejects either frame with
    [ProtocolError "len exceeds subprotocol max data frame size"] once it
    has read the 6-byte header, leaving the body unread. *)
Theorem oversize_frames_refused (body : list byte) (ms : list (list byte))
        (c : Conn) :
  16384 < len body ->
  len body + 6 <= MaxUint32 ->
  (exists f,
      makeSuccessFrame body = Returns f /\
      (inbound (conn c) = f :: ms ->
       readFrame c =
         (Err (ProtocolError "len exceeds subprotocol max data frame size"),
          with_inbound (body :: ms) c))) /\
  (exists f,
      makeDataFrame body = Returns f /\
      (inbound (conn c) = f :: ms ->
       connected c = true ->
       u64 (recvNbUnacked c - recvNbAcked c) <= subprotoAckThreshold ->
       readFrame c =
         (Err (ProtocolError "len exceeds subprotocol max data frame size"),
          with_inbound (body :: ms) c))).
Proof.
  intros Hbig Hfit.
  assert (Hne : body <> []).
  { destruct body; [cbn in Hbig; lia | discriminate]. }
  assert (Hgt : (len body + 6 >? MaxUint32) = false) by lia.
  assert (Hu : u32 (len body) = len body).
  { unfold u32. apply Z.mod_small. unfold MaxUint32 in Hfit. lia. }
  split.
  - eexists. unfold makeSuccessFrame. rewrite Hgt. split; [reflexivity |].
    intros Hin. rewrite (readFrame_success_message body ms c Hne Hfit Hin).
    destruct (len body >? subprotoMaxFrameSize) eqn:E;
      [reflexivity | unfold subprotoMaxFrameSize in E; lia].
  - eexists. unfold makeDataFrame. rewrite Hgt, Hu. split; [reflexivity |].
    intros Hin Hconn Hdue.
    assert (Htag : conn_ReadArray 2 c =
                   (Ok (PutUint16 subprotoTagData),
                    with_inbound ((PutUint32 (len body) ++ body) :: ms) c)).
    { rewrite (conn_ReadArray_prefix 2 _ _ _ _ Hin eq_refl). reflexivity. }
    assert (Hlen : conn_ReadArray 4
                     (with_inbound ((PutUint32 (len body) ++ body) :: ms) c) =
                   (Ok (PutUint32 (len body)), with_inbound (body :: ms) c)).
    { rewrite (conn_ReadArray_prefix 4 (PutUint32 (len body)) body ms);
        [| reflexivity | reflexivity].
      destruct body; [congruence |].
      destruct c as [[] ? ? ? ? ? ? ? ?]. reflexivity. }
    rewrite (readFrame_tag _ _ _ Htag).
    change (Uint16 (PutUint16 subprotoTagData)) with subprotoTagData.
    cbn [with_inbound with_conn connected]. rewrite Hconn.
    cbn [negb Z.eqb subprotoTagData subprotoTagSuccess subprotoTagAck Pos.eqb].
    unfold handleDataFrame. unfold bind at 1, errorOf.
    unfold readDataFrame. unfold bind at 1.
    fold (with_inbound ((PutUint32 (len body) ++ body) :: ms) c).
    rewrite Hlen.
    rewrite (Uint32_PutUint32 (len body)) by (unfold MaxUint32 in Hfit; lia).
    destruct (len body >? subprotoMaxFrameSize) eqn:E;
      [| unfold subprotoMaxFrameSize in E; lia].
    unfold bind at 1 2, gets, fail.
    cbn [with_inbound with_conn recvNbUnacked recvNbAcked].
    destruct (u64 (recvNbUnacked c - recvNbAcked c) >? subprotoAckThreshold)
      eqn:Hd; [lia |].
    reflexivity.
Qed.

Lemma oversize_frames_refused_witness :
  16384 < len (repeat x61 (Z.to_nat 16385)) /\
  exists f, makeDataFrame (repeat x61 (Z.to_nat 16385)) = Returns f.
Proof.
  assert (H1 : 16384 < len (repeat x61 (Z.to_nat 16385)))
    by (vm_compute; reflexivity).
  assert (H2 : len (repeat x61 (Z.to_nat 16385)) + 6 <= MaxUint32)
    by (vm_compute; discriminate).
  split; [exact H1 |].
  destruct (oversize_frames_refused (repeat x61 (Z.to_nat 16385)) []
              (established []) H1 H2) as [_ (f & Hf & _)].
  exists f. exact Hf.
Defined.

Section ReaderEffects.

Ltac fields_of H :=
  let Heq := fresh "Heq" in
  destruct H as [Heq _]; rewrite Heq; cbn;
  unfold readerKeeps, atMostOneAck; cbn.

Lemma readsOnly_keeps (c c' : Conn) :
  readsOnly c c' -> readerKeeps c c' /\ atMostOneAck c c'.
Proof.
  intros H. fields_of H.
  split; [repeat split; auto | left; split; reflexivity].
Qed.

(** One frame of the reader loop: what it keeps, and the one thing it
    may write. *)
Lemma readFrame_keeps (c c' : Conn) (r : outcome unit) :
  readFrame c = (r, c') -> readerKeeps c c' /\ atMostOneAck c c'.
Proof.
  intros H.
  destruct (conn_ReadArray 2 c) as [r1 c1] eqn:E1.
  pose proof (conn_ReadArray_inv _ _ _ _ E1) as (Hro1 & _ & Hr1).
  destruct r1 as [bytes| e | | msg |]; try contradiction.
  2:{ rewrite (readFrame_no_tag _ _ _ E1) in H. injection H as <- <-.
      apply readsOnly_keeps, Hro1. }
  rewrite (readFrame_tag _ _ _ E1) in H.
  destruct (Uint16 bytes =? subprotoTagSuccess).
  { apply readSuccessFrame_inv in H. destruct H as (c0 & sid & Hro0 & Hr).
    pose proof (readsOnly_trans _ _ _ Hro1 Hro0) as Hro.
    destruct r as [[]| e | | msg |]; try contradiction.
    - destruct Hr as [-> _]. fields_of Hro.
      split; [repeat split; auto | left; split; reflexivity].
    - subst c'. fields_of Hro.
      split; [repeat split; auto | left; split; reflexivity]. }
  destruct (connected c1); cbn [negb] in H.
  2:{ injection H as <- <-. apply readsOnly_keeps, Hro1. }
  destruct (Uint16 bytes =? subprotoTagAck).
  { apply readAckFrame_inv in H.
    destruct r as [[]| e | | msg |]; try contradiction.
    - destruct H as (c0 & count & _ & Hro0 & _ & ->).
      pose proof (readsOnly_trans _ _ _ Hro1 Hro0) as Hro. fields_of Hro.
      split; [repeat split; auto | left; split; reflexivity].
    - subst c'. apply readsOnly_keeps, Hro1. }
  destruct (Uint16 bytes =? subprotoTagData).
  2:{ injection H as <- <-. apply readsOnly_keeps, Hro1. }
  apply handleDataFrame_inv in H.
  destruct H as (c2 & r2 & E2 & Hr2 & Hack).
  apply readDataFrame_inv in E2.
  assert (Hc2 : exists c0 u, readsOnly c c0 /\ c2 = with_recvNbUnacked u c0).
  { destruct Hr2 as [-> | [e ->]].
    - destruct E2 as (c0 & L & w & Hro0 & _ & _ & _ & _ & ->).
      exists c0, (u64 (recvNbUnacked c1 + L)).
      split; [eauto using readsOnly_trans | reflexivity].
    - exists c2, (recvNbUnacked c2).
      split; [eauto using readsOnly_trans |].
      destruct c2 as [[] ? ? ? ? ? ? ? ?]. reflexivity. }
  destruct Hc2 as (c0 & u & Hro & ->).
  destruct (u64 (recvNbUnacked (with_recvNbUnacked u c0)
                 - recvNbAcked (with_recvNbUnacked u c0)) >? subprotoAckThreshold).
  - destruct (writesLeft (conn (with_recvNbUnacked u c0))) as [|m].
    + destruct Hack as [-> _]. fields_of Hro.
      split; [repeat split; auto | left; split; reflexivity].
    + destruct Hack as [-> _]. fields_of Hro.
      split; [repeat split; auto | right; split; reflexivity].
  - destruct Hack as [-> _]. fields_of Hro.
    split; [repeat split; auto | left; split; reflexivity].
Qed.

End ReaderEffects.

Section ReaderExit.

Lemma closeWriters_werr (e : error) (c : Conn) :
  werr (sendPipe (snd (closeWriters e c))) =
    Some (match werr (sendPipe c) with Some e0 => e0 | None => e end) /\
  werr (recvPipe (snd (closeWriters e c))) =
    Some (match werr (recvPipe c) with Some e0 => e0 | None => e end) /\
  outbound (conn (snd (closeWriters e c))) = outbound (conn c) /\
  connected (snd (closeWriters e c)) = connected c.
Proof.
  unfold closeWriters, bind, modify, Pipe_CloseWithError. cbn.
  destruct (werr (sendPipe c)) eqn:Es, (werr (recvPipe c)) eqn:Er; cbn;
    rewrite ?Es, ?Er; repeat split.
Qed.


(** However the reader loop comes to its end, it leaves both pipes
    closed: a pipe that was closed keeps its error, an open one gets the
    error the loop ended on, converted. *)
Lemma read_loop_closes (fuel : nat) :
  forall c,
    (unreadSize (conn c) < fuel)%nat ->
    exists e,
      werr (sendPipe (snd (read_loop fuel c))) =
        Some (match werr (sendPipe c) with
              | Some e0 => e0 | None => asCloseError e end) /\
      werr (recvPipe (snd (read_loop fuel c))) =
        Some (match werr (recvPipe c) with
              | Some e0 => e0 | None => asCloseError e end) /\
      (connected c = true -> connected (snd (read_loop fuel c)) = true).
Proof.
  induction fuel as [|fuel IH]; intros c Hsz; [lia |].
  destruct (readFrame c) as [r c1] eqn:E.
  pose proof (readFrame_inv _ _ _ E) as (Hr & _).
  pose proof (readFrame_keeps _ _ _ E) as ((Hsp & _ & Hwe & _ & _ & Hcn) & _).
  destruct r as [[]| e | | msg |]; try contradiction.
  - rewrite (read_loop_continue _ _ _ E).
    destruct (IH c1 ltac:(lia)) as (e & Hs & Hrv & Hc).
    exists e. rewrite Hs, Hrv, Hsp, Hwe. repeat split. auto.
  - rewrite (read_loop_error _ _ _ _ E). exists e.
    destruct (closeWriters_werr (asCloseError e) c1) as (Hs & Hrv & _ & Hc).
    rewrite Hs, Hrv, Hsp, Hwe, Hc. repeat split. exact Hcn.
Qed.

Lemma last_cons (a d : Z) (l : list Z) : last (a :: l) d = last l a.
Proof.
  revert a d. induction l as [|b l IH]; intros a d; [reflexivity |].
  change (last (a :: b :: l) d) with (last (b :: l) d).
  rewrite (IH b d), (IH b a). reflexivity.
Qed.

(** Whatever number of frames the reader loop gets through, all it has
    written to the transport are ACK frames, and [recvNbAcked] is the
    count of the last of them. *)
Lemma read_loop_acks (fuel : nat) :
  forall c,
    exists acks,
      outbound (conn (snd (read_loop fuel c))) =
        outbound (conn c) ++ map makeAckFrame acks /\
      recvNbAcked (snd (read_loop fuel c)) = last acks (recvNbAcked c).
Proof.
  induction fuel as [|fuel IH]; intros c.
  - exists []. cbn. rewrite app_nil_r. split; reflexivity.
  - destruct (readFrame c) as [r c1] eqn:E.
    pose proof (readFrame_inv _ _ _ E) as (Hr & _).
    pose proof (readFrame_keeps _ _ _ E) as (_ & Hack).
    assert (Hrest : exists acks,
      outbound (conn (snd (read_loop (S fuel) c))) =
        outbound (conn c1) ++ map makeAckFrame acks /\
      recvNbAcked (snd (read_loop (S fuel) c)) = last acks (recvNbAcked c1)).
    { destruct r as [[]| e | | msg |]; try contradiction.
      - rewrite (read_loop_continue _ _ _ E). apply IH.
      - rewrite (read_loop_error _ _ _ _ E). exists []. cbn.
        rewrite app_nil_r. split; reflexivity. }
    destruct Hrest as (acks & Hout & Hlast).
    destruct Hack as [[Ho Ha] | [Ho Ha]].
    + exists acks. rewrite Hout, Hlast, Ho, Ha. split; reflexivity.
    + exists (recvNbAcked c1 :: acks). rewrite Hout, Hlast, Ho.
      cbn [map]. rewrite <- app_assoc. split; [reflexivity |].
      symmetry. apply last_cons.
Qed.

End ReaderExit.


(** X7.  The reader writes nothing but acknowledgements.  Over a whole
    run of [Conn.read], what was appended to the transport's output is a
    sequence of ACK frames, and [Received()] at the end is the count
    carried by the last of them, or its initial value if none was sent. *)
Theorem reader_writes_only_acks (c : Conn) :
  exists acks,
    outbound (conn (snd (read c))) = outbound (conn c) ++ map makeAckFrame acks /\
    Received (snd (read c)) = last acks (Received c).
Proof. unfold read, Received. apply read_loop_acks. Qed.

(** X8.  [Connected()] outlives the tunnel.  Once the handshake is done,
    [connected] is never reset: after [Conn.read] has returned, with both
    pipes closed for good, [Connected()] still reports true. *)
Theorem connected_after_exit (c : Conn) :
  connected c = true ->
  Connected (snd (read c)) = true /\
  werr (recvPipe (snd (read c))) <> None /\
  werr (sendPipe (snd (read c))) <> None.
Proof.
  intros Hconn.
  destruct (read_loop_closes (S (unreadSize (conn c))) c ltac:(lia))
    as (e & Hs & Hr & Hc).
  unfold read, Connected. rewrite Hs, Hr.
  split; [exact (Hc Hconn) | split; discriminate].
Qed.

Lemma connected_after_exit_witness :
  Connected (snd (read (established [[x00; x04; x00; x00; x40; x01]]))) = true /\
  werr (recvPipe (snd (read (established [[x00; x04; x00; x00; x40; x01]]))))
    <> None.
Proof.
  pose proof (connected_after_exit
                (established [[x00; x04; x00; x00; x40; x01]]) eq_refl)
    as (Hc & Hr & _).
  split; [exact Hc | exact Hr].
Defined.



(** X10.  [Close] ends the writer loop.  After [Close] on a tunnel with no
    write parked on the channel and both pipes open, whatever the
    transport's own [Close] returned, the writer loop takes the closed
    channel for [io.EOF]: it writes nothing, closes both pipes with
    [io.EOF] and returns. *)
Theorem close_ends_writer (connClose : option error) (c : Conn) :
  sendNbCh c = Idle ->
  pipesOpen c ->
  sendNbCh (snd (Close connClose c)) = Closed /\
  fst (write (snd (Close connClose c))) = Ok tt /\
  closedWith EOF (snd (write (snd (Close connClose c)))) /\
  outbound (conn (snd (write (snd (Close connClose c))))) = outbound (conn c).
Proof.
  intros Hch [Hs Hr].
  assert (Hc : snd (Close connClose c) = with_sendNbCh Closed c).
  { unfold Close, bind, closeOnceFunc. rewrite Hch.
    destruct connClose; reflexivity. }
  rewrite Hc. unfold write. cbn [write_loop].
  unfold bind, errorOf, writeFrame, bind, recv_sendNbCh. cbn.
  unfold Pipe_CloseWithError, closedWith. rewrite Hs, Hr. cbn.
  repeat split.
Qed.

Lemma close_ends_writer_witness :
  fst (write (snd (Close None (established [])))) = Ok tt /\
  closedWith EOF (snd (write (snd (Close None (established []))))).
Proof.
  pose proof (close_ends_writer None (established []) eq_refl
                (conj eq_refl eq_refl)) as (_ & Hok & Hcl & _).
  split; [exact Hok | exact Hcl].
Defined.

(** X11.  [Close] is once-only, and [Write] after it panics.  In every
    state a second [Close] changes nothing and does not panic, and a
    [Conn.Write] after [Close] panics with "send on closed channel"
    whatever the buffer. *)
Theorem write_after_close_panics (r1 r2 : option error) (buf : list byte)
        (c : Conn) :
  snd (Close r2 (snd (Close r1 c))) = snd (Close r1 c) /\
  panicked (fst (closeOnceFunc (snd (Close r1 c)))) = false /\
  fst (Conn_Write buf (snd (Close r1 c))) = Panicked "send on closed channel".
Proof.
  assert (Hc : sendNbCh (snd (Close r1 c)) = Closed).
  { unfold Close, bind, closeOnceFunc.
    destruct (sendNbCh c) eqn:E; destruct r1; cbn; rewrite ?E; reflexivity. }
  split; [| split].
  - unfold Close at 1, bind, closeOnceFunc. rewrite Hc.
    destruct r2; reflexivity.
  - unfold closeOnceFunc. rewrite Hc. reflexivity.
  - unfold Conn_Write. rewrite Hc. reflexivity.
Qed.

(** X12.  A tag that arrives split.  [readFrame] reads the tag with one
    [Read], not [io.ReadFull]: when the first unread message holds a
    single byte, that byte with a zero behind it is taken for the tag;
    it matches none of SUCCESS, DATA and ACK, so on a connected tunnel
    the byte is dropped as an unknown frame and before the handshake it
    is the protocol error, whatever bytes follow. *)
Theorem split_tag_misread (b : byte) (ms : list (list byte)) (c : Conn) :
  inbound (conn c) = [b] :: ms ->
  readFrame c =
  if connected c then (Ok tt, with_inbound ms c)
  else (Err (ProtocolError "expected success frame but not did receive one"),
        with_inbound ms c).
Proof.
  intros Hin.
  assert (Htag : conn_ReadArray 2 c = (Ok [b; x00], with_inbound ms c)).
  { unfold conn_ReadArray, bind, conn_Read. rewrite Hin. reflexivity. }
  rewrite (readFrame_tag _ _ _ Htag), Uint16_arith.
  pose proof (Z_of_byte_range b) as Hb.
  change (Z_of_byte x00) with 0.
  assert (Hs : (Z_of_byte b * 256 + 0 =? subprotoTagSuccess) = false).
  { apply Z.eqb_neq. unfold subprotoTagSuccess. lia. }
  assert (Hd : (Z_of_byte b * 256 + 0 =? subprotoTagData) = false).
  { apply Z.eqb_neq. unfold subprotoTagData. lia. }
  assert (Ha : (Z_of_byte b * 256 + 0 =? subprotoTagAck) = false).
  { apply Z.eqb_neq. unfold subprotoTagAck. lia. }
  rewrite Hs, Hd, Ha. cbn [with_inbound with_conn connected].
  destruct (connected c); reflexivity.
Qed.

Lemma split_tag_misread_witness :
  readFrame (established [[x00]; [x04; x00; x00; x00; x01; x61]]) =
  (Ok tt, established [[x04; x00; x00; x00; x01; x61]]).
Proof.
  exact (split_tag_misread x00 [[x04; x00; x00; x00; x01; x61]]
           (established [[x00]; [x04; x00; x00; x00; x01; x61]]) eq_refl).
Defined.

Section ConnectURL.

Lemma connectURL_setOptions (d : dialOptions) :
  connectURL d =
  String.append "wss://tunnel.cloudproxy.app/v4/connect"
    (match setOptions d with
     | [] => EmptyString
     | ps => String.append "?" (queryOf ps)
     end).
Proof.
  destruct d as [z r p po n i ins h g cmp].
  destruct z, r, p, po, n, i, ins, h, g; reflexivity.
Qed.

Lemma occurrences_append (ch : ascii) (s t : string) :
  occurrences ch (String.append s t) = (occurrences ch s + occurrences ch t)%nat.
Proof.
  induction s as [|c s IH]; [reflexivity |].
  cbn [String.append occurrences]. rewrite IH. lia.
Qed.

Lemma upperhex_no_delimiter (ch : ascii) (n : nat) :
  delimiter ch = true -> Ascii.eqb (upperhex n) ch = false.
Proof.
  intros H. unfold delimiter in H.
  apply orb_true_iff in H. destruct H as [H | H];
    [apply orb_true_iff in H; destruct H as [H | H] |];
    apply Ascii.eqb_eq in H; subst ch;
    do 16 (destruct n as [|n]; [reflexivity |]); reflexivity.
Qed.

Lemma unreserved_no_delimiter (ch c : ascii) :
  delimiter ch = true -> unreserved c = true -> Ascii.eqb c ch = false.
Proof.
  intros H Hu. unfold delimiter in H.
  apply orb_true_iff in H. destruct H as [H | H];
    [apply orb_true_iff in H; destruct H as [H | H] |];
    apply Ascii.eqb_eq in H; subst ch;
    destruct c as [[] [] [] [] [] [] [] []];
    try reflexivity; discriminate Hu.
Qed.

(** [QueryEscape] leaves no [&], [=] or [?] in a value. *)
Lemma QueryEscape_no_delimiter (ch : ascii) (s : string) :
  delimiter ch = true -> occurrences ch (QueryEscape s) = 0%nat.
Proof.
  intros H. induction s as [|c s IH]; [reflexivity |].
  cbn [QueryEscape].
  assert (Hplus : Ascii.eqb "+" ch = false).
  { unfold delimiter in H.
    destruct (Ascii.eqb_spec "+"%char ch) as [<- |]; [discriminate | reflexivity]. }
  assert (Hpct : Ascii.eqb "%" ch = false).
  { unfold delimiter in H.
    destruct (Ascii.eqb_spec "%"%char ch) as [<- |]; [discriminate | reflexivity]. }
  destruct (Ascii.eqb c " ").
  - cbn [occurrences]. rewrite Hplus, IH. reflexivity.
  - destruct (unreserved c) eqn:Hu.
    + cbn [occurrences]. rewrite (unreserved_no_delimiter ch c H Hu), IH.
      reflexivity.
    + cbn [occurrences].
      rewrite Hpct, !(upperhex_no_delimiter ch _ H), IH. reflexivity.
Qed.

Lemma setOptions_names (d : dialOptions) :
  Forall (fun kv => forall ch, delimiter ch = true ->
                               occurrences ch (fst kv) = 0%nat)
         (setOptions d).
Proof.
  apply Forall_forall. intros kv Hin. unfold setOptions in Hin.
  apply filter_In in Hin. destruct Hin as [Hin _].
  assert (Hname : In (fst kv)
            ["group"; "host"; "instance"; "interface"; "network"; "port";
             "project"; "region"; "zone"]%string).
  { cbn in Hin. cbn.
    repeat (destruct Hin as [<- | Hin]; [cbn; tauto |]). contradiction. }
  intros ch Hch. unfold delimiter in Hch.
  apply orb_true_iff in Hch. destruct Hch as [Hch | Hch];
    [apply orb_true_iff in Hch; destruct Hch as [Hch | Hch] |];
    apply Ascii.eqb_eq in Hch; subst ch;
    cbn in Hname;
    repeat (destruct Hname as [<- | Hname]; [reflexivity |]); contradiction.
Qed.

(** In the query of [n] parameters with clean names, [=] occurs [n]
    times, [&] occurs [n - 1] times and [?] does not occur. *)
Lemma queryOf_occurrences (ps : list (string * string)) :
  Forall (fun kv => forall ch, delimiter ch = true ->
                               occurrences ch (fst kv) = 0%nat) ps ->
  occurrences "=" (queryOf ps) = length ps /\
  occurrences "&" (queryOf ps) = pred (length ps) /\
  occurrences "?" (queryOf ps) = 0%nat.
Proof.
  induction 1 as [|kv ps Hkv Hps IH]; [repeat split |].
  destruct IH as (IHe & IHa & IHq).
  assert (Hone : forall ch, delimiter ch = true ->
            occurrences ch (String.append (fst kv)
              (String.append "=" (QueryEscape (snd kv)))) =
            if Ascii.eqb "=" ch then 1%nat else 0%nat).
  { intros ch Hch. rewrite !occurrences_append, (Hkv ch Hch),
      (QueryEscape_no_delimiter ch _ Hch). cbn [occurrences].
    destruct (Ascii.eqb "=" ch); reflexivity. }
  unfold queryOf in *.
  destruct ps as [|kv' ps'].
  - cbn [map String.concat length pred].
    rewrite (Hone "="%char eq_refl), (Hone "&"%char eq_refl),
      (Hone "?"%char eq_refl). repeat split.
  - cbn [map] in *.
    change (String.concat "&" (?x :: ?y :: ?r))
      with (String.append x (String.append "&" (String.concat "&" (y :: r)))).
    set (part := String.append (fst kv)
                   (String.append "=" (QueryEscape (snd kv)))) in *.
    rewrite !occurrences_append.
    rewrite (Hone "="%char eq_refl), (Hone "&"%char eq_refl),
      (Hone "?"%char eq_refl).
    rewrite IHe, IHa, IHq. cbn [occurrences length pred Ascii.eqb Bool.eqb].
    repeat split; lia.
Qed.

End ConnectURL.

(** X13.  The connection URL.  [connectURL] is the proxy's address
    [wss://tunnel.cloudproxy.app/v4/connect] followed, when at least one
    option is set, by [?] and one [name=value] per option that is set and
    none for an empty one, in alphabetical order of the names (not the
    order of the source), values escaped and joined by [&]; with no
    option set there is no [?]. *)
Theorem connectURL_shape (d : dialOptions) :
  connectURL d =
  String.append "wss://tunnel.cloudproxy.app/v4/connect"
    (match setOptions d with
     | [] => EmptyString
     | ps => String.append "?" (queryOf ps)
     end) /\
  (forall name, In name (map fst (setOptions d)) ->
     In name ["group"; "host"; "instance"; "interface"; "network"; "port";
              "project"; "region"; "zone"]%string) /\
  Forall (fun kv => snd kv <> EmptyString) (setOptions d).
Proof.
  split; [apply connectURL_setOptions |]. split.
  - intros name Hin. apply in_map_iff in Hin.
    destruct Hin as (kv & <- & Hin). unfold setOptions in Hin.
    apply filter_In in Hin. destruct Hin as [Hin _].
    cbn in Hin. cbn.
    repeat (destruct Hin as [<- | Hin]; [cbn; tauto |]). contradiction.
  - apply Forall_forall. intros kv Hin. unfold setOptions in Hin.
    apply filter_In in Hin. destruct Hin as [_ Hne].
    intros Heq. rewrite Heq in Hne. discriminate.
Qed.

(** X14.  No option value can add a parameter.  Whatever bytes the option
    values hold, the URL has exactly one [=] per option that is set, one
    [&] between two of them and at most the one [?] that starts the
    query: a value cannot smuggle in a separator. *)
Theorem connectURL_separators (d : dialOptions) :
  occurrences "=" (connectURL d) = length (setOptions d) /\
  occurrences "&" (connectURL d) = pred (length (setOptions d)) /\
  occurrences "?" (connectURL d) =
    match setOptions d with [] => 0%nat | _ => 1%nat end.
Proof.
  rewrite connectURL_setOptions.
  pose proof (queryOf_occurrences _ (setOptions_names d)) as (He & Ha & Hq).
  destruct (setOptions d) as [|kv ps] eqn:E.
  - repeat split.
  - rewrite !occurrences_append, He, Ha, Hq. repeat split.
Qed.

(** X15.  [Write] on a tunnel whose pipes are closed.  When the send pipe
    has been closed with some error (the reader loop ended) while the
    writer loop still waits on the channel, a non-empty [Conn.Write]
    hands its count over, returns [(0, io.ErrClosedPipe)] and not the
    error the tunnel ended with, puts nothing on the wire, and makes the
    writer loop return. *)
Theorem write_on_closed_pipe (buf : list byte) (e : error) (c : Conn) :
  sendNbCh c = Idle ->
  werr (sendPipe c) = Some e ->
  buf <> [] ->
  fst ((Conn_Write buf ;; write) c) = Ok tt /\
  Write_result (snd ((Conn_Write buf ;; write) c)) = Some (0%nat, Some ErrClosedPipe) /\
  outbound (conn (snd ((Conn_Write buf ;; write) c))) = outbound (conn c) /\
  werr (sendPipe (snd ((Conn_Write buf ;; write) c))) = Some e.
Proof.
  intros Hch Hs Hne.
  assert (Hpos : 0 < len buf).
  { destruct buf; [congruence | unfold len; cbn; lia]. }
  remember ((Conn_Write buf ;; write) c) as res eqn:E.
  unfold bind at 1, Conn_Write in E. rewrite Hch in E.
  unfold write in E. cbn [write_loop] in E. unfold bind at 1, errorOf in E.
  unfold writeFrame in E. unfold bind at 1, recv_sendNbCh in E.
  cbn [sendNbCh with_sendNbCh sendPipe] in E. unfold Pipe_offer in E.
  rewrite Hs in E. cbn [negb] in E.
  destruct (Z.to_nat (len buf)) as [|fuel] eqn:Hfuel; [lia |].
  cbn [writeFrame_loop] in E. destruct (len buf >? 0) eqn:Hgt; [| lia].
  unfold bind at 1, sendReader_Read, Pipe_Read in E.
  cbn [sendPipe with_sendPipe with_sendNbCh werr] in E.
  unfold closeWriters, bind, modify, Pipe_CloseWithError in E.
  cbn [fst snd sendPipe recvPipe with_sendPipe with_recvPipe with_sendNbCh
       werr writer conn outbound sendNbCh] in E.
  subst res. unfold Write_result.
  destruct (werr (recvPipe c)); cbn; rewrite ?Hs; repeat split.
Qed.

Lemma write_on_closed_pipe_witness :
  Write_result
    (snd ((Conn_Write [x68; x69] ;; write)
            (snd (read (established [[x00; x04; x00; x00; x40; x01]])))))
  = Some (0%nat, Some ErrClosedPipe) /\
  werr (sendPipe (snd ((Conn_Write [x68; x69] ;; write)
            (snd (read (established [[x00; x04; x00; x00; x40; x01]]))))))
  = Some (ProtocolError "len exceeds subprotocol max data frame size").
Proof.
  assert (Hne : [x68; x69] <> []) by discriminate.
  pose proof (write_on_closed_pipe [x68; x69]
                (ProtocolError "len exceeds subprotocol max data frame size")
                (snd (read (established [[x00; x04; x00; x00; x40; x01]])))
                eq_refl eq_refl Hne) as (_ & Hres & _ & Hs).
  split; [exact Hres | exact Hs].
Defined.
